(** * Timeline: step functions over time, backed by a frame of segments

    Shallow embedding of [timeline.py].  A [pd.Timestamp] is a timezone-naive
    instant, an integer number of nanoseconds ([Z]); a DataFrame with the
    columns ['start', 'end', 'value'] is the list of its rows, in positional
    order; a Python tuple of dynamic arity is a list.  A column of instants
    has the dtype [datetime64[ns]] when each of them fits a signed 64-bit
    count of nanoseconds.  The value type comes with its [==] and with the
    cell that [DataFrame.iterrows] hands back for a value (class [PyValue]).
    Exceptions are threaded through the [result] monad. *)

From Stdlib Require Import ZArith Lia.
From stdpp Require Import base decidable option list numbers strings gmap sorting.

(** ** Exceptions *)

Inductive exn : Type :=
| AssertionError (msg : string)
| ValueError (msg : string)
| IndexError
| KeyError.

Inductive result (A : Type) : Type :=
| Ok (a : A)
| Raise (e : exn).

Arguments Ok {A} a.
Arguments Raise {A} e.

#[global] Instance result_ret : MRet result := @Ok.

#[global] Instance result_bind : MBind result :=
  λ A B f m, match m with Ok a => f a | Raise e => Raise e end.

#[global] Instance result_fmap : FMap result :=
  λ A B f m, match m with Ok a => Ok (f a) | Raise e => Raise e end.

(** [assert cond, msg] *)
Definition assert_ (cond : bool) (msg : string) : result unit :=
  if cond then Ok () else Raise (AssertionError msg).

(** ** Python sequences: positional access with negative indices *)

Module Py.

Definition position (n : nat) (i : Z) : option nat :=
  if bool_decide (0 ≤ i)%Z
  then (if bool_decide (i < Z.of_nat n)%Z then Some (Z.to_nat i) else None)
  else (if bool_decide (- Z.of_nat n ≤ i)%Z then Some (Z.to_nat (Z.of_nat n + i)) else None).

(** [l[i]] *)
Definition getitem {A} (l : list A) (i : Z) : result A :=
  match position (length l) i ≫= (l !!.) with
  | Some x => Ok x
  | None => Raise IndexError
  end.

(** [l[i] = x] *)
Definition setitem {A} (l : list A) (i : Z) (x : A) : result (list A) :=
  match position (length l) i with
  | Some k => Ok (<[k := x]> l)
  | None => Raise IndexError
  end.

(** [all(x == l[0] for x in l)]: the generator never reads [l[0]] when
    [l] is empty. *)
Definition all_equal_first (l : list Z) : bool :=
  match l with
  | [] => true
  | x0 :: _ => forallb (λ x, bool_decide (x = x0)) l
  end.

End Py.

(** ** Values

    The class looks at the values in [merge_adjacent] only, where it reads
    them from the rows that [DataFrame.iterrows] yields and compares them
    with [==].  [py_eq a b] is the truth value of [a == b], which need not
    be reflexive (a float NaN differs from itself); [iterrows_value v] is
    the cell that [iterrows] hands back for the value [v]: each yielded
    row is a Series whose dtype is inferred again from the three cells of
    the row, so that a missing value next to the two timestamps comes back
    as NaT.  A value type is one whose [==] has a truth value and is
    symmetric and transitive, and whose cells, once handed back by
    [iterrows], are handed back unchanged when iterated again. *)

Class PyValue (T : Type) : Type := {
  py_eq : T → T → bool;
  iterrows_value : T → T;
  py_eq_sym : ∀ a b, py_eq a b = py_eq b a;
  py_eq_trans : ∀ a b c, py_eq a b = true → py_eq b c = true → py_eq a c = true;
  iterrows_value_idemp : ∀ v, iterrows_value (iterrows_value v) = iterrows_value v;
}.

(** Python integers: [==] is equality, and [iterrows] hands them back as
    they are. *)
#[global, refine] Instance int_value : PyValue Z := {
  py_eq a b := bool_decide (a = b);
  iterrows_value v := v;
}.
Proof.
  - intros a b. apply bool_decide_ext. split; congruence.
  - intros a b c ->%bool_decide_eq_true ->%bool_decide_eq_true. by apply bool_decide_eq_true.
  - done.
Defined.

(** A cell of a column of floats: a number, the float NaN, or the NaT
    that [iterrows] hands back for a NaN.  The numbers are compared only,
    and are taken in [Z]. *)
Inductive float_cell : Type :=
| Number (x : Z)
| NaN
| NaT.

#[global, refine] Instance float_value : PyValue float_cell := {
  py_eq a b := match a, b with
               | Number x, Number y => bool_decide (x = y)
               | _, _ => false
               end;
  iterrows_value v := match v with NaN => NaT | _ => v end;
}.
Proof.
  - intros [x| |] [y| |]; try done. apply bool_decide_ext. split; congruence.
  - intros [x| |] [y| |] [z| |]; try done.
    intros ->%bool_decide_eq_true ->%bool_decide_eq_true. by apply bool_decide_eq_true.
  - by intros [x| |].
Defined.

(** ** Rows *)

Module Segment.

Record t (T : Type) : Type := mk { start : Z; end_ : Z; value : T }.

Arguments mk {T} start end_ value.
Arguments start {T} _.
Arguments end_ {T} _.
Arguments value {T} _.

End Segment.

Abbreviation DataFrame T := (list (Segment.t T)).

(** ** pandas primitives used by the class *)

Module Pd.

(** [df.columns]: the frames of the class have the three columns. *)
Definition columns {T} (df : DataFrame T) : list string := ["start"; "end"; "value"].

(** [index.isin(values).all()] *)
Definition all_isin (index values : list string) : bool :=
  forallb (λ c, bool_decide (c ∈ values)) index.

(** The instants a [datetime64[ns]] column can hold: the signed 64-bit
    counts of nanoseconds, the smallest of which stands for NaT
    ([Timestamp.min] and [Timestamp.max]). *)
Definition ns_min : Z := -9223372036854775807.
Definition ns_max : Z := 9223372036854775807.

(** [series.dtype == 'datetime64[ns]'] for a column built from timestamps:
    the column gets that dtype when every instant fits it. *)
Definition is_datetime64_ns (col : list Z) : bool :=
  forallb (λ x, bool_decide (ns_min ≤ x ≤ ns_max)%Z) col.

(** [df.iterrows()]: the rows in order, each as a Series of its three
    cells. *)
Definition iterrows {T} `{PyValue T} (df : DataFrame T) : list (Segment.t T) :=
  (λ r, Segment.mk (Segment.start r) (Segment.end_ r) (iterrows_value (Segment.value r))) <$> df.

(** [Series.is_monotonic_increasing]: every element is [<=] its successor
    (equal neighbours are accepted). *)
Fixpoint is_monotonic_increasing (xs : list Z) : bool :=
  match xs with
  | x :: ((y :: _) as rest) => bool_decide (x ≤ y)%Z && is_monotonic_increasing rest
  | _ => true
  end.

(** [(a == b).all()] on two arrays of the same length. *)
Fixpoint all_eq (a b : list Z) : bool :=
  match a, b with
  | x :: a', y :: b' => bool_decide (x = y) && all_eq a' b'
  | _, _ => true
  end.

(** [s.iloc[:-1]] *)
Definition but_last {A} (l : list A) : list A := removelast l.

(** [df.iat[i, col] = v] for the columns 'start' and 'end'. *)
Definition iat_set_start {T} (df : DataFrame T) (i : Z) (v : Z) : result (DataFrame T) :=
  match Py.position (length df) i with
  | Some k => Ok (alter (λ r, Segment.mk v (Segment.end_ r) (Segment.value r)) k df)
  | None => Raise IndexError
  end.

Definition iat_set_end {T} (df : DataFrame T) (i : Z) (v : Z) : result (DataFrame T) :=
  match Py.position (length df) i with
  | Some k => Ok (alter (λ r, Segment.mk (Segment.start r) v (Segment.value r)) k df)
  | None => Raise IndexError
  end.

(** [df.at[k, col]] on a frame whose index is [0 .. len-1]. *)
Definition at_ {A} (df : list A) (k : nat) : result A :=
  match df !! k with
  | Some r => Ok r
  | None => Raise KeyError
  end.

End Pd.

(** ** The class *)

Module Timeline.

Import Segment.

(** A Timeline object is its private frame [_df]; the private constructor
    [Timeline(df)] stores a copy of [df] and checks nothing. *)
Abbreviation t T := (DataFrame T).

Section Defs.

Context {T : Type}.

Definition msg_empty : string := "Timeline must have at least one segment".
Definition msg_columns : string :=
  "DataFrame must contain 'start', 'end', and 'value' columns".
Definition msg_start_dtype : string := "Start must be a datetime64 column".
Definition msg_end_dtype : string := "End must be a datetime64 column".
Definition msg_sorted : string := "Segments must be sorted by start time".
Definition msg_contiguous : string := "Segments must be contiguous".
Definition msg_interval : string := "Start must be before end".
Definition msg_start : string := "All timelines must start at the same time".
Definition msg_end : string := "All timelines must end at the same time".

(** [_validate]: the seven assertions, in the order of the source. *)
Definition _validate (df : DataFrame T) : result unit :=
  assert_ (bool_decide (0 < length df)) msg_empty;;
  assert_ (Pd.all_isin (Pd.columns df) ["start"; "end"; "value"]) msg_columns;;
  assert_ (Pd.is_datetime64_ns (start <$> df)) msg_start_dtype;;
  assert_ (Pd.is_datetime64_ns (end_ <$> df)) msg_end_dtype;;
  assert_ (Pd.is_monotonic_increasing (start <$> df)) msg_sorted;;
  assert_ (bool_decide (length df ≤ 1)
           || Pd.all_eq (Pd.but_last (end_ <$> df)) (tail (start <$> df)))
          msg_contiguous;;
  assert_ (forallb (λ s, bool_decide (start s < end_ s)%Z) df) msg_interval;;
  Ok ().

Definition from_segments (segments : list (Segment.t T)) : result (t T) :=
  let df := segments in
  _validate df;;
  Ok df.

Definition from_dataframe (df : DataFrame T) : result (t T) :=
  _validate df;;
  Ok df.

(** [sorted(segments, key=lambda x: x[0])]: a stable sort on the start. *)
Fixpoint insert_by_start (x : Segment.t T) (l : list (Segment.t T)) : list (Segment.t T) :=
  match l with
  | [] => [x]
  | y :: l' =>
      if bool_decide (start x ≤ start y)%Z then x :: l else y :: insert_by_start x l'
  end.

Definition sorted_by_start (l : list (Segment.t T)) : list (Segment.t T) :=
  foldr insert_by_start [] l.

(** The gap-filling loop, started at index [i] with the segments filled
    so far. *)
Fixpoint fill_gaps (gap_value : T) (i : nat) (segments filled_segments : list (Segment.t T))
  : result (list (Segment.t T)) :=
  match segments with
  | [] => Ok filled_segments
  | s :: rest =>
      filled ← (if bool_decide (0 < i)
                then prev_segment ← Py.getitem filled_segments (-1);
                     Ok (if bool_decide (end_ prev_segment < start s)%Z
                         then filled_segments ++ [mk (end_ prev_segment) (start s) gap_value]
                         else filled_segments)
                else Ok filled_segments);
      fill_gaps gap_value (S i) rest (filled ++ [mk (start s) (end_ s) (value s)])
  end.

Definition from_segments_with_gaps (segments : list (Segment.t T)) (gap_value : T) : result (t T) :=
  match segments with
  | [] => Raise (ValueError msg_empty)
  | _ =>
      let segments := sorted_by_start segments in
      filled_segments ← fill_gaps gap_value 0 segments [];
      from_segments filled_segments
  end.

(** [slice]: the segments overlapping [[lo, hi)], the first and the last
    one clipped; the result is wrapped without validation. *)
Definition slice (self : t T) (lo hi : Z) : result (t T) :=
  let sliced := filter (λ s, (end_ s > lo)%Z ∧ (start s < hi)%Z) self in
  if bool_decide (length sliced = 0) then Ok sliced
  else
    first ← Py.getitem sliced 0;
    sliced ← (if bool_decide (start first < lo)%Z
              then Pd.iat_set_start sliced 0 lo
              else Ok sliced);
    last ← Py.getitem sliced (-1);
    sliced ← (if bool_decide (end_ last > hi)%Z
              then Pd.iat_set_end sliced (-1) hi
              else Ok sliced);
    Ok sliced.

Context `{PyValue T}.

(** One iteration of the merging loop, on a row that [iterrows] yielded. *)
Definition merge_step (merged : list (Segment.t T)) (row : Segment.t T) : list (Segment.t T) :=
  match last merged with
  | Some m =>
      if py_eq (value m) (value row)
      then <[pred (length merged) := mk (start m) (end_ row) (value row)]> merged
      else merged ++ [mk (start row) (end_ row) (value row)]
  | None => merged ++ [mk (start row) (end_ row) (value row)]
  end.

Definition merge_adjacent (self : t T) : result (t T) :=
  let merged := foldl merge_step [] (Pd.iterrows self) in
  from_segments merged.

End Defs.

(** The properties [start] and [end]. *)
Definition start {T} (self : t T) : result Z := Segment.start <$> Py.getitem self 0.
Definition end_ {T} (self : t T) : result Z := Segment.end_ <$> Py.getitem self (-1).

Definition map {T U} (self : t T) (func : T → U) : result (t U) :=
  let new_df := (λ r, mk (Segment.start r) (Segment.end_ r) (func (value r))) <$> self in
  from_dataframe new_df.

(** The cursor loop of [cross_product]:
    [while idx + 1 < len(df) and df.at[idx + 1, 'start'] <= seg_start: idx += 1]. *)
Fixpoint advance {T} (fuel : nat) (df : DataFrame T) (seg_start : Z) (idx : nat) : nat :=
  match fuel with
  | O => idx
  | S fuel' =>
      match df !! (idx + 1) with
      | Some next =>
          if bool_decide (Segment.start next ≤ seg_start)%Z
          then advance fuel' df seg_start (idx + 1)
          else idx
      | None => idx
      end
  end.

(** [for j, df in enumerate(dfs)]: moves the j-th cursor and appends the
    value under it. *)
Fixpoint sweep_row {T} (seg_start : Z) (jdfs : list (nat * DataFrame T))
    (idxs : list nat) (values : list T) : result (list nat * list T) :=
  match jdfs with
  | [] => Ok (idxs, values)
  | (j, df) :: rest =>
      idx ← Py.getitem idxs (Z.of_nat j);
      idxs ← Py.setitem idxs (Z.of_nat j) (advance (length df) df seg_start idx);
      idx ← Py.getitem idxs (Z.of_nat j);
      row ← Pd.at_ df idx;
      sweep_row seg_start rest idxs (values ++ [value row])
  end.

(** [for i in range(len(boundaries) - 1)] *)
Fixpoint sweep {T} (dfs : list (DataFrame T)) (boundaries : list Z)
    (idxs : list nat) (segments : list (Segment.t (list T)))
  : result (list (Segment.t (list T))) :=
  match boundaries with
  | seg_start :: ((seg_end :: _) as later) =>
      '(idxs, values) ← sweep_row seg_start (imap pair dfs) idxs [];
      sweep dfs later idxs (segments ++ [mk seg_start seg_end values])
  | _ => Ok segments
  end.

(** [sorted(boundaries)] for the set of all starts and ends. *)
Definition boundaries {T} (timelines : list (t T)) : list Z :=
  let boundaries : gset Z :=
    foldl (λ acc tl, acc ∪ list_to_set (Segment.start <$> tl)
                         ∪ list_to_set (Segment.end_ <$> tl)) ∅ timelines in
  merge_sort (≤)%Z (elements boundaries).

Definition cross_product {T} (timelines : list (t T)) : result (t (list T)) :=
  starts ← mapM start timelines;
  ends ← mapM end_ timelines;
  assert_ (Py.all_equal_first starts) msg_start;;
  assert_ (Py.all_equal_first ends) msg_end;;
  let dfs := timelines in
  let idxs := replicate (length timelines) 0 in
  segments ← sweep dfs (boundaries timelines) idxs [];
  from_segments segments.

End Timeline.


Import Timeline.

(** ** Specification-level notions *)

Section Specs.

Context {T : Type}.

(** [chain a b df]: the rows of [df] tile [[a, b)] back to back, each
    with [start < end]. *)
Inductive chain : Z → Z → DataFrame T → Prop :=
| chain_one s :
    (Segment.start s < Segment.end_ s)%Z →
    chain (Segment.start s) (Segment.end_ s) [s]
| chain_cons s b df :
    (Segment.start s < Segment.end_ s)%Z →
    chain (Segment.end_ s) b df →
    chain (Segment.start s) b (s :: df).

(** The four invariants of the data model. *)
Definition valid (df : DataFrame T) : Prop := ∃ a b, chain a b df.

(** An instant that a [datetime64[ns]] column can hold, and a frame whose
    'start' and 'end' columns have that dtype. *)
Definition ns_range (x : Z) : Prop := (Pd.ns_min ≤ x ≤ Pd.ns_max)%Z.

Definition ns_frame (df : DataFrame T) : Prop :=
  Forall (λ s, ns_range (Segment.start s) ∧ ns_range (Segment.end_ s)) df.

Definition contiguous (df : DataFrame T) : Prop :=
  ∀ i r r', df !! i = Some r → df !! S i = Some r' → Segment.end_ r = Segment.start r'.

#[global] Instance contiguous_dec (df : DataFrame T) : Decision (contiguous df).
Proof.
  induction df as [|r [|r' df] IH].
  - left. by intros [|].
  - left. intros [|i] ?? H1 H2; simplify_eq/=.
  - destruct (decide (Segment.end_ r = Segment.start r')) as [E|E].
    + destruct IH as [IH|IH].
      * left. intros [|i] a b H1 H2; simplify_eq/=; [done|]. by eapply IH.
      * right. intros H. apply IH. intros i a b H1 H2. by apply (H (S i)).
    + right. intros H. apply E. by apply (H 0).
Defined.

(** Neighbouring rows never carry the same value. *)
Definition no_adjacent_equal (df : DataFrame T) : Prop :=
  ∀ i r r', df !! i = Some r → df !! S i = Some r' → Segment.value r ≠ Segment.value r'.

(** *** slice *)

(** The half-open overlap test of [slice]. *)
Definition overlaps (lo hi : Z) (s : Segment.t T) : Prop :=
  (lo < Segment.end_ s ∧ Segment.start s < hi)%Z.

#[global] Instance overlaps_dec lo hi s : Decision (overlaps lo hi s).
Proof. unfold overlaps. apply _. Defined.

(** What [slice] does to the row at position [i] of a selection of [n]
    rows: only the first start and the last end can change. *)
Definition clip (lo hi : Z) (n i : nat) (s : Segment.t T) : Segment.t T :=
  Segment.mk
    (if decide (i = 0 ∧ (Segment.start s < lo)%Z) then lo else Segment.start s)
    (if decide (S i = n ∧ (hi < Segment.end_ s)%Z) then hi else Segment.end_ s)
    (Segment.value s).

Definition clipped (lo hi : Z) (selected : DataFrame T) : DataFrame T :=
  imap (clip lo hi (length selected)) selected.

(** The Timeline objects the public interface can produce: those that
    passed the validator, and the slices of such objects. *)
Inductive constructed : Timeline.t T → Prop :=
| constructed_valid tl : _validate tl = Ok () → constructed tl
| constructed_slice tl lo hi tl' :
    constructed tl → slice tl lo hi = Ok tl' → constructed tl'.

(** *** cross_product *)

(** The value a Timeline holds at instant [b]: that of the first row
    whose half-open interval contains [b]. *)
Definition value_at (tl : Timeline.t T) (b : Z) : option T :=
  Segment.value <$> head (filter (λ s, (Segment.start s ≤ b ∧ b < Segment.end_ s)%Z) tl).

Fixpoint consecutive_pairs (bs : list Z) : list (Z * Z) :=
  match bs with
  | b1 :: ((b2 :: _) as rest) => (b1, b2) :: consecutive_pairs rest
  | _ => []
  end.

(** [bs] is the ascending list, without duplicates, of all starts and
    ends of all rows of all the timelines. *)
Definition is_boundaries (timelines : list (Timeline.t T)) (bs : list Z) : Prop :=
  StronglySorted Z.lt bs
  ∧ ∀ b, b ∈ bs ↔ ∃ tl s, tl ∈ timelines ∧ s ∈ tl
                          ∧ (b = Segment.start s ∨ b = Segment.end_ s).

(** [row] is the output row for the pair of boundaries [p]: its value is
    the tuple of the values the timelines hold at the first boundary, in
    the order of the timelines. *)
Definition product_row (timelines : list (Timeline.t T)) (p : Z * Z)
    (row : Segment.t (list T)) : Prop :=
  Segment.start row = p.1 ∧ Segment.end_ row = p.2
  ∧ Forall2 (λ tl v, value_at tl p.1 = Some v) timelines (Segment.value row).

(** The cursor [idx] of a frame is usable at boundary [b]: it points at a
    row that starts at or before [b]. *)
Definition cursor_ok (b : Z) (df : DataFrame T) (idx : nat) : Prop :=
  ∃ r, df !! idx = Some r ∧ (Segment.start r ≤ b)%Z.

(** *** from_segments_with_gaps *)

(** A list of segments with a filler between every two neighbours that
    leave a gap. *)
Fixpoint gaps_filled (gap_value : T) (segments : list (Segment.t T)) : list (Segment.t T) :=
  match segments with
  | prev :: ((next :: _) as rest) =>
      if decide (Segment.end_ prev < Segment.start next)%Z
      then prev :: Segment.mk (Segment.end_ prev) (Segment.start next) gap_value
                :: gaps_filled gap_value rest
      else prev :: gaps_filled gap_value rest
  | _ => segments
  end.

(** Two segments overlap as half-open intervals. *)
Definition overlapping (a b : Segment.t T) : Prop :=
  (Segment.start a < Segment.end_ b ∧ Segment.start b < Segment.end_ a)%Z.

(** *** merge_adjacent *)

Context `{EqDecision T} `{PyValue T}.

(** The values of [df] are plain: [iterrows] hands each of them back as
    it is, and [==] between two of them is equality. *)
Definition plain_values (df : DataFrame T) : Prop :=
  ∀ r, r ∈ df →
    iterrows_value (Segment.value r) = Segment.value r
    ∧ ∀ r', r' ∈ df →
        py_eq (Segment.value r) (Segment.value r')
        = bool_decide (Segment.value r = Segment.value r').


(** The maximal runs of consecutive rows with equal values. *)
Fixpoint runs (df : DataFrame T) : list (DataFrame T) :=
  match df with
  | [] => []
  | s :: rest =>
      match runs rest with
      | (r :: run) :: others =>
          if decide (Segment.value s = Segment.value r)
          then (s :: r :: run) :: others
          else [s] :: (r :: run) :: others
      | _ => [[s]]
      end
  end.

(** [seg] replaces [run]: from the first start to the last end, with the
    value of the run. *)
Definition spans (run : DataFrame T) (seg : Segment.t T) : Prop :=
  ∃ first final,
    head run = Some first ∧ last run = Some final
    ∧ seg = Segment.mk (Segment.start first) (Segment.end_ final) (Segment.value first).

(** [rs] cuts [df] into its maximal runs of equal values. *)
Definition run_partition (rs : list (DataFrame T)) (df : DataFrame T) : Prop :=
  concat rs = df
  ∧ Forall (λ run, run ≠ []
            ∧ ∀ r r', r ∈ run → r' ∈ run → Segment.value r = Segment.value r') rs
  ∧ ∀ i run run', rs !! i = Some run → rs !! S i = Some run' →
      ∀ r r', r ∈ run → r' ∈ run' → Segment.value r ≠ Segment.value r'.

(** Merging by equal values, seen from the last accumulated row [cur]:
    the rows that [cur] and the remaining [rows] leave. *)
Fixpoint absorb (cur : Segment.t T) (rows : DataFrame T) : DataFrame T :=
  match rows with
  | [] => [cur]
  | row :: rest =>
      if decide (Segment.value cur = Segment.value row)
      then absorb (Segment.mk (Segment.start cur) (Segment.end_ row) (Segment.value row)) rest
      else cur :: absorb (Segment.mk (Segment.start row) (Segment.end_ row) (Segment.value row)) rest
  end.

(** The loop of [merge_adjacent] seen in the same way: the rows that the
    last accumulated row [cur] and the remaining [rows] leave in [merged],
    with [==] for the comparison. *)
Fixpoint merge_loop (cur : Segment.t T) (rows : list (Segment.t T)) : DataFrame T :=
  match rows with
  | [] => [cur]
  | row :: rest =>
      if py_eq (Segment.value cur) (Segment.value row)
      then merge_loop (Segment.mk (Segment.start cur) (Segment.end_ row) (Segment.value row)) rest
      else cur :: merge_loop (Segment.mk (Segment.start row) (Segment.end_ row) (Segment.value row)) rest
  end.

End Specs.

(** The row constructor of the test suite, on integer instants and
    values. *)
Definition ts (start end_ value : Z) : Segment.t Z := Segment.mk start end_ value.

Section Basics.

Context {T : Type}.
Implicit Types (df : DataFrame T) (s r : Segment.t T).

Lemma getitem_first {A} (x : A) (l : list A) : Py.getitem (x :: l) 0 = Ok x.
Proof. reflexivity. Qed.

Lemma getitem_last {A} (l : list A) :
  Py.getitem l (-1) = match last l with Some x => Ok x | None => Raise IndexError end.
Proof.
  unfold Py.getitem, Py.position.
  rewrite bool_decide_eq_false_2 by lia.
  destruct l as [|x l]; [done|].
  rewrite bool_decide_eq_true_2 by (simpl; lia).
  rewrite last_lookup. simpl.
  replace (Z.to_nat (Z.of_nat (S (length l)) + -1)) with (length l) by lia.
  done.
Qed.

Lemma strongly_sorted_weaken {A} (R R' : relation A) (l : list A) :
  (∀ x y, R x y → R' x y) → StronglySorted R l → StronglySorted R' l.
Proof.
  intros HR. induction 1 as [|x l ? IH Hx]; constructor; [done|].
  eapply Forall_impl; [exact Hx|]. auto.
Qed.

Lemma monotonic_Sorted (xs : list Z) :
  Pd.is_monotonic_increasing xs = true ↔ Sorted Z.le xs.
Proof.
  induction xs as [|x [|y xs] IH]; simpl.
  - split; [intros; constructor|done].
  - split; [intros; repeat constructor|done].
  - rewrite andb_true_iff, bool_decide_eq_true, IH. split.
    + intros [? ?]. constructor; [done|by constructor].
    + intros H. apply Sorted_inv in H as [? H]. by apply HdRel_inv in H.
Qed.

Lemma all_eq_contiguous df :
  Pd.all_eq (Pd.but_last (Segment.end_ <$> df)) (tail (Segment.start <$> df)) = true
  ↔ contiguous df.
Proof.
  unfold Pd.but_last, contiguous. induction df as [|r [|r' df] IH].
  - split; [|done]. by intros _ [|].
  - split; [|done]. intros _ [|i] ?? H1 H2; simplify_eq/=.
  - change (Pd.all_eq _ _) with
      (bool_decide (Segment.end_ r = Segment.start r')
       && Pd.all_eq (removelast (Segment.end_ <$> r' :: df))
                    (tail (Segment.start <$> r' :: df))).
    rewrite andb_true_iff, bool_decide_eq_true, IH. split.
    + intros [E H] [|i] a b H1 H2; simplify_eq/=; [done|]. by eapply H.
    + intros H. split; [by apply (H 0)|]. intros i a b H1 H2. by apply (H (S i)).
Qed.

End Basics.

Section Validation.

Context {T : Type}.
Implicit Types (df : DataFrame T) (s r : Segment.t T).

Lemma forallb_interval df :
  forallb (λ s, bool_decide (Segment.start s < Segment.end_ s)%Z) df = true
  ↔ Forall (λ s, (Segment.start s < Segment.end_ s)%Z) df.
Proof.
  rewrite forallb_forall, Forall_forall. setoid_rewrite bool_decide_eq_true.
  by setoid_rewrite list_elem_of_In.
Qed.

Lemma contiguous_singleton s : contiguous [s].
Proof. intros [|i] ?? H1 H2; simplify_eq/=. Qed.

Lemma contiguous_cons s r df :
  contiguous (s :: r :: df) ↔ Segment.end_ s = Segment.start r ∧ contiguous (r :: df).
Proof.
  split.
  - intros H. split; [by apply (H 0)|]. intros i a b H1 H2. by apply (H (S i)).
  - intros [E H] [|i] a b H1 H2; simplify_eq/=; [done|]. by eapply H.
Qed.

Lemma columns_isin df :
  Pd.all_isin (Pd.columns df) ["start"; "end"; "value"] = true.
Proof. reflexivity. Qed.

Lemma is_datetime64_ns_spec (f : Segment.t T → Z) df :
  Pd.is_datetime64_ns (f <$> df) = true ↔ Forall (λ s, ns_range (f s)) df.
Proof.
  unfold Pd.is_datetime64_ns, ns_range. induction df as [|s df IH]; simpl.
  - split; [constructor|done].
  - rewrite andb_true_iff, bool_decide_eq_true, IH, Forall_cons. done.
Qed.

Lemma ns_frame_columns df :
  ns_frame df
  ↔ Forall (λ s, ns_range (Segment.start s)) df ∧ Forall (λ s, ns_range (Segment.end_ s)) df.
Proof. unfold ns_frame. by rewrite Forall_and. Qed.

(** The validator as a cascade of its checks, in the order of the
    assertions; the assertion on the column names never fails. *)
Lemma validate_cascade df :
  _validate df =
    if decide (df = []) then Raise (AssertionError msg_empty)
    else if decide (¬ Forall (λ s, ns_range (Segment.start s)) df)
         then Raise (AssertionError msg_start_dtype)
    else if decide (¬ Forall (λ s, ns_range (Segment.end_ s)) df)
         then Raise (AssertionError msg_end_dtype)
    else if decide (¬ Sorted Z.le (Segment.start <$> df)) then Raise (AssertionError msg_sorted)
    else if decide (¬ contiguous df) then Raise (AssertionError msg_contiguous)
    else if decide (¬ Forall (λ s, (Segment.start s < Segment.end_ s)%Z) df)
         then Raise (AssertionError msg_interval)
    else Ok ().
Proof.
  unfold _validate.
  destruct (decide (df = [])) as [->|Hne]; [done|].
  rewrite (bool_decide_eq_true_2 (0 < length df)) by (destruct df; [done|simpl; lia]).
  rewrite columns_isin. cbn [assert_ mbind result_bind].
  destruct (decide (¬ Forall (λ s, ns_range (Segment.start s)) df)) as [Hd|Hd].
  { rewrite <- (is_datetime64_ns_spec Segment.start) in Hd.
    by apply not_true_is_false in Hd as ->. }
  apply dec_stable, (is_datetime64_ns_spec Segment.start) in Hd. rewrite Hd.
  cbn [assert_ mbind result_bind].
  destruct (decide (¬ Forall (λ s, ns_range (Segment.end_ s)) df)) as [Hd'|Hd'].
  { rewrite <- (is_datetime64_ns_spec Segment.end_) in Hd'.
    by apply not_true_is_false in Hd' as ->. }
  apply dec_stable, (is_datetime64_ns_spec Segment.end_) in Hd'. rewrite Hd'.
  cbn [assert_ mbind result_bind].
  destruct (decide (¬ Sorted Z.le (Segment.start <$> df))) as [Hs|Hs].
  { rewrite <- monotonic_Sorted in Hs. by apply not_true_is_false in Hs as ->. }
  apply dec_stable, monotonic_Sorted in Hs. rewrite Hs. simpl.
  destruct (decide (¬ contiguous df)) as [Hc|Hc].
  { assert (1 < length df) as Hlen.
    { destruct df as [|? [|? ?]]; [done| |simpl; lia].
      destruct Hc. apply contiguous_singleton. }
    rewrite (bool_decide_eq_false_2 (length df ≤ 1)) by lia.
    rewrite <- all_eq_contiguous in Hc. by apply not_true_is_false in Hc as ->. }
  apply dec_stable in Hc. apply all_eq_contiguous in Hc. rewrite Hc, orb_true_r. simpl.
  destruct (decide (¬ Forall _ df)) as [Hi|Hi].
  { rewrite <- forallb_interval in Hi. by apply not_true_is_false in Hi as ->. }
  apply dec_stable, forallb_interval in Hi. by rewrite Hi.
Qed.

Lemma chain_one_mk a b (v : T) : (a < b)%Z → chain a b [Segment.mk a b v].
Proof. intros. by apply (chain_one (Segment.mk a b v)). Qed.

Lemma chain_cons_mk a c b (v : T) df :
  (a < c)%Z → chain c b df → chain a b (Segment.mk a c v :: df).
Proof. intros. by apply (chain_cons (Segment.mk a c v)). Qed.

Lemma chain_nonempty a b df : chain a b df → df ≠ [].
Proof. by destruct 1. Qed.

Lemma chain_head a b df : chain a b df → Segment.start <$> head df = Some a.
Proof. by destruct 1. Qed.

Lemma chain_last a b df : chain a b df → Segment.end_ <$> last df = Some b.
Proof.
  induction 1 as [s ?|s b df ? Hc IH]; [done|].
  destruct df; [by apply chain_nonempty in Hc|done].
Qed.

Lemma chain_lt a b df : chain a b df → (a < b)%Z.
Proof. induction 1; lia. Qed.

Lemma chain_interval a b df :
  chain a b df → Forall (λ s, (Segment.start s < Segment.end_ s)%Z) df.
Proof. induction 1; by repeat constructor. Qed.

Lemma chain_contiguous a b df : chain a b df → contiguous df.
Proof.
  induction 1 as [s ?|s b df ? Hc IH]; [apply contiguous_singleton|].
  inversion Hc; subst; by apply contiguous_cons.
Qed.

(** Every row of a chain lies inside its span. *)
Lemma chain_bounds a b df s :
  chain a b df → s ∈ df → (a ≤ Segment.start s ∧ Segment.end_ s ≤ b)%Z.
Proof.
  induction 1 as [r ?|r b df ? Hc IH]; intros Hin.
  - apply list_elem_of_singleton in Hin as ->. lia.
  - apply elem_of_cons in Hin as [->|Hin].
    + apply chain_lt in Hc. lia.
    + specialize (IH Hin). lia.
Qed.

Lemma chain_sorted a b df : chain a b df → StronglySorted Z.lt (Segment.start <$> df).
Proof.
  induction 1 as [r ?|r b df ? Hc IH]; simpl; [by repeat constructor|].
  constructor; [done|]. apply Forall_fmap, Forall_forall. intros s Hs. simpl.
  apply (chain_bounds _ _ _ _ Hc) in Hs. lia.
Qed.

Lemma valid_intro df :
  df ≠ [] → contiguous df → Forall (λ s, (Segment.start s < Segment.end_ s)%Z) df → valid df.
Proof.
  induction df as [|s [|r df] IH]; intros Hne Hc Hi; [done|..].
  - apply Forall_cons in Hi as [? _]. eexists _, _. by apply chain_one.
  - apply Forall_cons in Hi as [? Hi]. apply contiguous_cons in Hc as [E Hc].
    destruct (IH ltac:(done) Hc Hi) as (a & b & Hch).
    pose proof (chain_head _ _ _ Hch) as Hh. simpl in Hh. simplify_eq.
    eexists _, _. apply chain_cons; [done|]. by rewrite E.
Qed.

Lemma ns_frame_intro df :
  Pd.is_datetime64_ns (Segment.start <$> df) = true →
  Pd.is_datetime64_ns (Segment.end_ <$> df) = true → ns_frame df.
Proof.
  intros H1%(is_datetime64_ns_spec Segment.start) H2%(is_datetime64_ns_spec Segment.end_).
  by apply ns_frame_columns.
Qed.

(** An instant between two instants of the nanosecond range is in the
    range. *)
Lemma ns_range_between a b x : ns_range a → ns_range b → (a ≤ x ≤ b)%Z → ns_range x.
Proof. unfold ns_range. lia. Qed.

Lemma ns_frame_elem df s :
  ns_frame df → s ∈ df → ns_range (Segment.start s) ∧ ns_range (Segment.end_ s).
Proof. unfold ns_frame. rewrite Forall_forall. auto. Qed.

(** The rows of a chain are in the range when its two ends are. *)
Lemma chain_ns a b df : chain a b df → ns_range a → ns_range b → ns_frame df.
Proof.
  intros Hc Ha Hb. apply Forall_forall. intros s Hs.
  pose proof (chain_bounds _ _ _ _ Hc Hs).
  pose proof (chain_interval _ _ _ Hc) as Hi.
  rewrite Forall_forall in Hi. specialize (Hi _ Hs).
  split; apply (ns_range_between a b); (done || lia).
Qed.

Lemma chain_ns_span a b df : chain a b df → ns_frame df → ns_range a ∧ ns_range b.
Proof.
  intros Hc Hns. split.
  - apply chain_head in Hc. destruct df as [|s df]; simplify_eq/=.
    by apply Forall_cons in Hns as [[? _] _].
  - apply chain_last in Hc. destruct (last df) as [s|] eqn:Hlast; simplify_eq/=.
    apply last_Some_elem_of in Hlast. by apply (ns_frame_elem _ _ Hns) in Hlast as [_ ?].
Qed.

(** A frame passes the validator exactly when it satisfies the four
    invariants and its instants fit the nanosecond range. *)
Lemma validate_valid df : _validate df = Ok () ↔ valid df ∧ ns_frame df.
Proof.
  rewrite validate_cascade, ns_frame_columns. split.
  - repeat case_decide; try done. intros _.
    split; [by apply valid_intro|done].
  - intros [(a & b & Hc) [Hs He]].
    rewrite decide_False by by eapply chain_nonempty.
    rewrite decide_False by (by intros []).
    rewrite decide_False by (by intros []).
    rewrite decide_False.
    2:{ intros []. apply StronglySorted_Sorted.
        eapply strongly_sorted_weaken; [|by eapply chain_sorted]. intros; lia. }
    rewrite decide_False by (intros []; by eapply chain_contiguous).
    rewrite decide_False by (intros []; by eapply chain_interval). done.
Qed.

Lemma validate_chain df : _validate df = Ok () → valid df.
Proof. by intros [? _]%validate_valid. Qed.

Lemma validate_ns df : _validate df = Ok () → ns_frame df.
Proof. by intros [_ ?]%validate_valid. Qed.

Lemma validate_intro a b df : chain a b df → ns_frame df → _validate df = Ok ().
Proof. intros Hc Hns. apply validate_valid. split; [by eexists _, _|done]. Qed.

(** A frame over a span inside the span of a validated frame. *)
Lemma validate_inside a b df a' b' df' :
  chain a b df → ns_frame df → chain a' b' df' → (a ≤ a')%Z → (b' ≤ b)%Z →
  _validate df' = Ok ().
Proof.
  intros Hc Hns Hc' Ha Hb. apply (validate_intro a' b'); [done|].
  destruct (chain_ns_span _ _ _ Hc Hns) as [Hna Hnb].
  pose proof (chain_lt _ _ _ Hc'). pose proof (chain_lt _ _ _ Hc).
  apply (chain_ns a' b'); [done|..]; apply (ns_range_between a b); (done || lia).
Qed.

Lemma validate_single_interval s :
  ns_range (Segment.start s) → ns_range (Segment.end_ s) →
  ¬ (Segment.start s < Segment.end_ s)%Z → _validate [s] = Raise (AssertionError msg_interval).
Proof.
  intros H1 H2 Hs. rewrite validate_cascade.
  rewrite decide_False by done.
  rewrite decide_False by (intros []; constructor; [done|constructor]).
  rewrite decide_False by (intros []; constructor; [done|constructor]).
  rewrite decide_False by (intros []; repeat constructor).
  rewrite decide_False by (intros []; apply contiguous_singleton).
  rewrite decide_True; [done|]. by intros [? _]%Forall_cons.
Qed.

Lemma from_segments_valid a b df : chain a b df → ns_frame df → from_segments df = Ok df.
Proof.
  intros Hc Hns. unfold from_segments. by rewrite (validate_intro a b df Hc Hns).
Qed.

Lemma from_segments_Ok_inv df out :
  from_segments df = Ok out → out = df ∧ _validate df = Ok ().
Proof.
  unfold from_segments. destruct (_validate df) as [[]|] eqn:E; simpl; [|done].
  by intros [= <-].
Qed.

End Validation.

Section Slice.

Context {T : Type}.
Implicit Types (df sel : DataFrame T) (s r : Segment.t T) (lo hi : Z).

Lemma slice_filter df lo hi :
  filter (λ s, (Segment.end_ s > lo)%Z ∧ (Segment.start s < hi)%Z) df
  = filter (overlaps lo hi) df.
Proof. apply list_filter_iff. intros s. unfold overlaps. lia. Qed.

Lemma position_last (n : nat) : 0 < n → Py.position n (-1) = Some (pred n).
Proof.
  intros. unfold Py.position.
  rewrite bool_decide_eq_false_2, bool_decide_eq_true_2 by lia. f_equal. lia.
Qed.

(** [slice] never raises, and its result is the clipped selection. *)
Lemma slice_clipped df lo hi :
  slice df lo hi = Ok (clipped lo hi (filter (overlaps lo hi) df)).
Proof.
  unfold slice. rewrite slice_filter.
  generalize (filter (overlaps lo hi) df). intros sel.
  destruct sel as [|first rest]; [done|].
  rewrite bool_decide_eq_false_2 by done.
  rewrite getitem_first. cbn [mbind result_bind].
  pose (n := length (first :: rest)).
  assert (∃ sel2, (if bool_decide (Segment.start first < lo)%Z
                   then Pd.iat_set_start (first :: rest) 0 lo else Ok (first :: rest))
                  = Ok sel2
                  ∧ length sel2 = n
                  ∧ ∀ i, sel2 !! i =
                      (λ r, Segment.mk
                         (if decide (i = 0 ∧ (Segment.start r < lo)%Z) then lo else Segment.start r)
                         (Segment.end_ r) (Segment.value r)) <$> (first :: rest) !! i)
    as (sel2 & -> & Hlen2 & Hsel2).
  { case_bool_decide.
    - eexists. split; [reflexivity|]. split; [done|].
      intros [|i]; simpl; [by rewrite decide_True|].
      destruct (rest !! i) as [[]|]; done.
    - eexists. split; [reflexivity|]. split; [done|].
      intros [|i]; simpl; [rewrite decide_False by lia; by destruct first|].
      destruct (rest !! i) as [[]|]; done. }
  cbn [mbind result_bind].
  rewrite getitem_last.
  destruct (last sel2) as [l|] eqn:Hlast.
  2:{ apply last_None in Hlast. subst sel2. done. }
  cbn [mbind result_bind].
  rewrite last_lookup, Hlen2 in Hlast.
  assert (∃ out, (if bool_decide (Segment.end_ l > hi)%Z
                  then Pd.iat_set_end sel2 (-1) hi else Ok sel2) = Ok out
                 ∧ length out = n
                 ∧ ∀ i, out !! i =
                     (λ r, Segment.mk (Segment.start r)
                        (if decide (S i = n ∧ (hi < Segment.end_ r)%Z) then hi else Segment.end_ r)
                        (Segment.value r)) <$> sel2 !! i)
    as (out & -> & Hlen & Hout).
  { case_bool_decide.
    - unfold Pd.iat_set_end. rewrite position_last by (rewrite Hlen2; unfold n; simpl; lia).
      eexists. split; [reflexivity|]. split; [by rewrite length_alter|].
      intros i. rewrite Hlen2. destruct (decide (i = pred n)) as [->|Hne].
      + rewrite list_lookup_alter_eq, Hlast. simpl.
        rewrite decide_True; [done|]. split; [unfold n; simpl; lia|lia].
      + rewrite list_lookup_alter_ne by done.
        destruct (sel2 !! i) as [r|]; [|done]. simpl.
        rewrite decide_False by lia. by destruct r.
    - eexists. split; [reflexivity|]. split; [done|].
      intros i. destruct (sel2 !! i) as [r|] eqn:Hi; [|done]. simpl.
      destruct (decide (S i = n ∧ _)) as [[Hn ?]|]; [|by destruct r].
      assert (i = pred n) as -> by lia. simplify_eq. lia. }
  cbn [mbind result_bind]. f_equal.
  apply list_eq. intros i. unfold clipped. rewrite list_lookup_imap, Hout, Hsel2.
  destruct ((first :: rest) !! i) as [r|]; [|done]. done.
Qed.

Lemma filter_none (P : Segment.t T → Prop) `{∀ s, Decision (P s)} df :
  Forall (λ s, ¬ P s) df → filter P df = [].
Proof.
  induction 1 as [|s df Hs _ IH]; [done|].
  by rewrite filter_cons_False.
Qed.

Lemma filter_all (P : Segment.t T → Prop) `{∀ s, Decision (P s)} df :
  Forall P df → filter P df = df.
Proof.
  induction 1 as [|s df Hs _ IH]; [done|].
  rewrite filter_cons_True by done. by rewrite IH.
Qed.

Lemma chain_inside a b df s :
  chain a b df → s ∈ df →
  (a ≤ Segment.start s ∧ Segment.start s < Segment.end_ s ∧ Segment.end_ s ≤ b)%Z.
Proof.
  intros Hc Hin. pose proof (chain_bounds _ _ _ _ Hc Hin).
  pose proof (chain_interval _ _ _ Hc) as Hi.
  rewrite Forall_forall in Hi. specialize (Hi _ Hin). lia.
Qed.

(** On a chain the selection of [slice] is a block of consecutive rows. *)
Lemma filter_chain_prefix lo hi a b df :
  chain a b df → (lo < a)%Z →
  filter (overlaps lo hi) df = [] ∨ ∃ b', chain a b' (filter (overlaps lo hi) df).
Proof.
  induction 1 as [s Hs|s b df Hs Hc IH]; intros Hlo.
  - destruct (decide (overlaps lo hi s)).
    + right. rewrite filter_cons_True by done. eexists. by apply chain_one.
    + left. by rewrite filter_cons_False.
  - destruct (decide (overlaps lo hi s)) as [Ho|Ho].
    + right. rewrite filter_cons_True by done.
      destruct IH as [->|[b' Hb']]; [lia| |].
      * eexists. by apply chain_one.
      * eexists. by apply chain_cons.
    + left. rewrite filter_cons_False by done. apply filter_none, Forall_forall.
      intros r Hr. apply (chain_inside _ _ _ _ Hc) in Hr. unfold overlaps in *. lia.
Qed.

Lemma filter_chain lo hi a b df :
  chain a b df →
  filter (overlaps lo hi) df = [] ∨ ∃ a' b', chain a' b' (filter (overlaps lo hi) df).
Proof.
  induction 1 as [s Hs|s b df Hs Hc IH].
  - destruct (decide (overlaps lo hi s)).
    + right. rewrite filter_cons_True by done. eexists _, _. by apply chain_one.
    + left. by rewrite filter_cons_False.
  - destruct (decide (overlaps lo hi s)) as [Ho|Ho].
    + right. rewrite filter_cons_True by done.
      destruct (filter_chain_prefix lo hi _ _ _ Hc) as [->|[b' Hb']];
        [unfold overlaps in Ho; lia| |].
      * eexists _, _. by apply chain_one.
      * eexists _, _. by apply chain_cons.
    + by rewrite filter_cons_False.
Qed.

Lemma filter_chain_suffix lo hi a b df :
  chain a b df → (b ≤ hi)%Z →
  filter (overlaps lo hi) df = [] ∨ ∃ a', chain a' b (filter (overlaps lo hi) df).
Proof.
  induction 1 as [s Hs|s b df Hs Hc IH]; intros Hhi.
  - destruct (decide (overlaps lo hi s)).
    + right. rewrite filter_cons_True by done. eexists. by apply chain_one.
    + left. by rewrite filter_cons_False.
  - destruct (decide (overlaps lo hi s)) as [Ho|Ho].
    + right. rewrite filter_cons_True by done.
      rewrite filter_all.
      * eexists. by apply chain_cons.
      * apply Forall_forall. intros r Hr.
        apply (chain_inside _ _ _ _ Hc) in Hr. unfold overlaps in *. lia.
    + rewrite filter_cons_False by done. by apply IH.
Qed.

Lemma clipped_lookup lo hi sel i :
  clipped lo hi sel !! i = clip lo hi (length sel) i <$> sel !! i.
Proof. apply list_lookup_imap. Qed.

Lemma clipped_length lo hi sel : length (clipped lo hi sel) = length sel.
Proof. apply length_imap. Qed.

(** Clipping a selected block leaves a valid frame, unless the block is a
    single row. *)
Lemma clipped_shape lo hi a b sel :
  chain a b sel → Forall (overlaps lo hi) sel →
  (∃ s, clipped lo hi sel = [s]) ∨ valid (clipped lo hi sel).
Proof.
  intros Hc Ho. destruct sel as [|s1 [|s2 rest]].
  - by apply chain_nonempty in Hc.
  - left. by eexists.
  - right. assert (2 ≤ length (s1 :: s2 :: rest)) as Hlen by (simpl; lia).
    revert Hc Ho Hlen. generalize (s1 :: s2 :: rest). clear s1 s2 rest.
    intros sel Hc Ho Hlen. apply valid_intro.
    + intros E. apply (f_equal length) in E. rewrite clipped_length in E. simpl in E. lia.
    + intros i r r'. rewrite !clipped_lookup. intros H1 H2.
      destruct (sel !! i) as [x|] eqn:Hx; [|done].
      destruct (sel !! S i) as [x'|] eqn:Hx'; [|done]. simplify_eq/=.
      pose proof (lookup_lt_Some _ _ _ Hx').
      rewrite decide_False by lia.
      by apply (chain_contiguous _ _ _ Hc i).
    + apply Forall_lookup. intros i r. rewrite clipped_lookup. intros H1.
      destruct (sel !! i) as [x|] eqn:Hx; [|done]. simplify_eq/=.
      pose proof (list_elem_of_lookup_2 _ _ _ Hx) as Hin.
      pose proof (chain_inside _ _ _ _ Hc Hin).
      rewrite Forall_forall in Ho. specialize (Ho _ Hin). unfold overlaps in Ho.
      repeat case_decide; lia.
Qed.

Lemma constructed_shape (tl : Timeline.t T) :
  constructed tl → tl = [] ∨ (∃ s, tl = [s]) ∨ valid tl.
Proof.
  induction 1 as [tl Hv|tl lo hi tl' _ IH Hs].
  - right; right. by apply validate_valid.
  - rewrite slice_clipped in Hs. injection Hs as <-.
    destruct IH as [->|[[s ->]|(a & b & Hc)]].
    + by left.
    + destruct (decide (overlaps lo hi s)).
      * right; left. rewrite filter_cons_True by done. by eexists.
      * left. by rewrite filter_cons_False.
    + destruct (filter_chain lo hi _ _ _ Hc) as [->|(a' & b' & Hc')]; [by left|].
      right. eapply clipped_shape; [done|].
      apply Forall_forall. intros s Hs. by apply list_elem_of_filter in Hs as [? _].
Qed.

(** Clipping a selected row moves a bound inside the row. *)
Lemma clipped_ns lo hi sel :
  Forall (overlaps lo hi) sel → ns_frame sel → ns_frame (clipped lo hi sel).
Proof.
  intros Ho Hns. apply Forall_lookup. intros i r. rewrite clipped_lookup.
  destruct (sel !! i) as [x|] eqn:Hx; [|done]. intros [= <-].
  pose proof (list_elem_of_lookup_2 _ _ _ Hx) as Hin.
  destruct (ns_frame_elem _ _ Hns Hin) as [H1 H2].
  rewrite Forall_forall in Ho. specialize (Ho _ Hin). unfold overlaps in Ho.
  unfold clip. simpl.
  split; repeat case_decide; try done;
    apply (ns_range_between (Segment.start x) (Segment.end_ x)); (done || lia).
Qed.

(** Every object of the public interface has its instants in the
    nanosecond range. *)
Lemma constructed_ns (tl : Timeline.t T) : constructed tl → ns_frame tl.
Proof.
  induction 1 as [tl Hv|tl lo hi tl' _ IH Hs]; [by apply validate_ns|].
  rewrite slice_clipped in Hs. injection Hs as <-. apply clipped_ns.
  - apply Forall_forall. intros s Hs. by apply list_elem_of_filter in Hs as [? _].
  - apply Forall_forall. intros s Hs. apply list_elem_of_filter in Hs as [_ Hs].
    by apply (ns_frame_elem _ _ IH).
Qed.

End Slice.

Section SliceProperties.

Context {T : Type}.
Implicit Types (tl df sel : Timeline.t T) (s r : Segment.t T) (lo hi : Z).

Lemma start_cons s df : Timeline.start (s :: df) = Ok (Segment.start s).
Proof. reflexivity. Qed.

Lemma start_Ok_inv df a :
  Timeline.start df = Ok a → ∃ s rest, df = s :: rest ∧ Segment.start s = a.
Proof. destruct df as [|s rest]; [done|]. intros [= <-]. by eexists _, _. Qed.

Lemma end_last df :
  Timeline.end_ df
  = match last df with Some s => Ok (Segment.end_ s) | None => Raise IndexError end.
Proof. unfold Timeline.end_. rewrite getitem_last. by destruct (last df). Qed.

Lemma end_Ok_inv df b :
  Timeline.end_ df = Ok b → ∃ s, last df = Some s ∧ Segment.end_ s = b.
Proof. rewrite end_last. destruct (last df); [|done]. intros [= <-]. by eexists. Qed.

Lemma chain_span a b df : chain a b df → Timeline.start df = Ok a ∧ Timeline.end_ df = Ok b.
Proof.
  intros Hc. split.
  - apply chain_head in Hc. destruct df; simplify_eq/=. done.
  - rewrite end_last. apply chain_last in Hc. destruct (last df); simplify_eq/=. done.
Qed.

Lemma clipped_nil_inv lo hi sel : clipped lo hi sel = [] → sel = [].
Proof.
  intros E. apply (f_equal length) in E. rewrite clipped_length in E.
  by destruct sel.
Qed.

Lemma clipped_start lo hi sel a :
  Timeline.start sel = Ok a → (lo ≤ a)%Z → Timeline.start (clipped lo hi sel) = Ok a.
Proof.
  intros (s & rest & -> & <-)%start_Ok_inv Hlo. unfold clipped. simpl.
  rewrite start_cons. simpl. by rewrite decide_False by lia.
Qed.

Lemma clipped_end lo hi sel b :
  Timeline.end_ sel = Ok b → (b ≤ hi)%Z → Timeline.end_ (clipped lo hi sel) = Ok b.
Proof.
  intros (s & Hs & <-)%end_Ok_inv Hhi. rewrite end_last.
  rewrite last_lookup, clipped_lookup, clipped_length, <- last_lookup, Hs. simpl.
  by rewrite decide_False by lia.
Qed.

(** A bound outside the span keeps the corresponding end of the span in
    the selection. *)
Lemma selected_start tl lo hi a :
  constructed tl → Timeline.start tl = Ok a → (lo < a)%Z →
  filter (overlaps lo hi) tl ≠ [] →
  Timeline.start (filter (overlaps lo hi) tl) = Ok a.
Proof.
  intros [->|[[s ->]|(a' & b' & Hc)]]%constructed_shape Ha Hlo Hne; [done|..].
  - destruct (decide (overlaps lo hi s)).
    + by rewrite filter_cons_True.
    + by rewrite filter_cons_False in Hne.
  - destruct (chain_span _ _ _ Hc) as [Ha' _]. assert (a' = a) as -> by congruence.
    destruct (filter_chain_prefix lo hi _ _ _ Hc Hlo) as [?|[b'' Hc'']]; [done|].
    by apply chain_span in Hc'' as [? _].
Qed.

Lemma selected_end tl lo hi b :
  constructed tl → Timeline.end_ tl = Ok b → (b < hi)%Z →
  filter (overlaps lo hi) tl ≠ [] →
  Timeline.end_ (filter (overlaps lo hi) tl) = Ok b.
Proof.
  intros [->|[[s ->]|(a' & b' & Hc)]]%constructed_shape Hb Hhi Hne; [done|..].
  - destruct (decide (overlaps lo hi s)).
    + by rewrite filter_cons_True.
    + by rewrite filter_cons_False in Hne.
  - destruct (chain_span _ _ _ Hc) as [_ Hb']. assert (b' = b) as -> by congruence.
    destruct (filter_chain_suffix lo hi _ _ _ Hc) as [?|[a'' Hc'']]; [lia|done|].
    by apply chain_span in Hc'' as [_ ?].
Qed.

(** On a chain, bounds with [hi <= lo] select at most the one row that
    strictly contains both. *)
Lemma filter_point lo hi a b df s :
  chain a b df → s ∈ df → (hi ≤ lo)%Z → overlaps lo hi s →
  filter (overlaps lo hi) df = [s].
Proof.
  induction 1 as [s0 Hs0|s0 b df Hs0 Hc IH]; intros Hin Hle Ho.
  - apply list_elem_of_singleton in Hin as ->. by rewrite filter_cons_True.
  - apply elem_of_cons in Hin as [->|Hin].
    + rewrite filter_cons_True by done. f_equal. apply filter_none, Forall_forall.
      intros r Hr. apply (chain_inside _ _ _ _ Hc) in Hr. unfold overlaps in *. lia.
    + rewrite filter_cons_False; [by apply IH|].
      apply (chain_inside _ _ _ _ Hc) in Hin. unfold overlaps in *. lia.
Qed.

(** C4.  [slice(lo, hi)] with [lo <= hi] keeps exactly the rows with
    [end > lo] and [start < hi], in their order; in a non-empty selection
    the first start becomes [lo] only when it is smaller than [lo] and the
    last end becomes [hi] only when it is greater than [hi], every other
    field being unchanged ([clip]).  Hence a [lo] before the total start
    leaves the total start as it was, and a [hi] after the total end
    leaves the total end as it was. *)
Theorem slice_selects_and_clips tl lo hi :
  constructed tl → (lo ≤ hi)%Z →
  let selected := filter (λ s, (Segment.end_ s > lo)%Z ∧ (Segment.start s < hi)%Z) tl in
  ∃ out,
    slice tl lo hi = Ok out
    ∧ length out = length selected
    ∧ (∀ i s, selected !! i = Some s →
         out !! i = Some (Segment.mk
           (if decide (i = 0 ∧ (Segment.start s < lo)%Z) then lo else Segment.start s)
           (if decide (S i = length selected ∧ (hi < Segment.end_ s)%Z)
            then hi else Segment.end_ s)
           (Segment.value s)))
    ∧ (∀ a, out ≠ [] → Timeline.start tl = Ok a → (lo < a)%Z → Timeline.start out = Ok a)
    ∧ (∀ b, out ≠ [] → Timeline.end_ tl = Ok b → (b < hi)%Z → Timeline.end_ out = Ok b).
Proof.
  intros Hc Hle selected. unfold selected. clear selected. rewrite slice_filter.
  eexists. split; [apply slice_clipped|].
  split; [apply clipped_length|]. split; [|split].
  - intros i s Hs. by rewrite clipped_lookup, Hs.
  - intros a Hne Ha Hlo. apply clipped_start; [|lia].
    apply selected_start; [done..|]. intros E. by rewrite E in Hne.
  - intros b Hne Hb Hhi. apply clipped_end; [|lia].
    apply selected_end; [done..|]. intros E. by rewrite E in Hne.
Qed.

(** C5.  Bounds [lo <= hi] entirely outside the total span select
    nothing: [slice] returns normally, with a frame of zero rows, which the
    validator would have rejected for having no segment. *)
Theorem slice_outside_span_is_empty tl lo hi a b :
  constructed tl →
  Timeline.start tl = Ok a → Timeline.end_ tl = Ok b →
  (lo ≤ hi)%Z → (hi ≤ a ∨ b ≤ lo)%Z →
  filter (λ s, (Segment.end_ s > lo)%Z ∧ (Segment.start s < hi)%Z) tl = []
  ∧ slice tl lo hi = Ok []
  ∧ from_dataframe (T := T) [] = Raise (AssertionError msg_empty).
Proof.
  intros Hc Ha Hb Hle Hout.
  assert (filter (overlaps lo hi) tl = []) as Hnil.
  { apply constructed_shape in Hc as [->|[[s ->]|(a' & b' & Hc)]]; [done|..].
    - simplify_eq/=. rewrite filter_cons_False; [done|]. unfold overlaps.
      unfold Timeline.start, Timeline.end_ in *. simplify_eq/=. lia.
    - destruct (chain_span _ _ _ Hc) as [Ha' Hb'].
      assert (a' = a) as -> by congruence. assert (b' = b) as -> by congruence.
      apply filter_none, Forall_forall. intros r Hr.
      apply (chain_inside _ _ _ _ Hc) in Hr. unfold overlaps. lia. }
  rewrite slice_filter, slice_clipped, Hnil. done.
Qed.

(** C10.  Slicing a valid Timeline at a single instant [t] strictly inside
    a segment returns normally, with the one zero-width row [(t, t, value)],
    which the validator would have rejected for its interval. *)
Theorem slice_instant_zero_width tl s t :
  _validate tl = Ok () → s ∈ tl →
  (Segment.start s < t)%Z → (t < Segment.end_ s)%Z →
  slice tl t t = Ok [Segment.mk t t (Segment.value s)]
  ∧ from_dataframe [Segment.mk t t (Segment.value s)] = Raise (AssertionError msg_interval)
  ∧ from_segments [Segment.mk t t (Segment.value s)] = Raise (AssertionError msg_interval).
Proof.
  intros [(a & b & Hc) Hns]%validate_valid Hin H1 H2.
  rewrite slice_clipped.
  rewrite (filter_point t t a b tl s) by (done || lia || (unfold overlaps; lia)).
  unfold clipped, clip. simpl.
  rewrite !decide_True by lia.
  unfold from_dataframe, from_segments.
  destruct (ns_frame_elem _ _ Hns Hin) as [Hs1 Hs2].
  assert (ns_range t) as Ht.
  { apply (ns_range_between (Segment.start s) (Segment.end_ s)); (done || lia). }
  rewrite validate_single_interval by (done || (simpl; lia)). done.
Qed.

(** C3 (amended).  With [lo > hi] the result of [slice] has zero rows
    exactly when no segment has [start < hi] and [end > lo]; a valid
    Timeline has at most one such segment, and then the result is the
    single inverted row [(lo, hi, value)]. *)
Theorem slice_inverted_bounds tl lo hi :
  (lo > hi)%Z →
  (slice tl lo hi = Ok []
   ↔ ∀ s, s ∈ tl → ¬ ((Segment.start s < hi)%Z ∧ (Segment.end_ s > lo)%Z))
  ∧ (_validate tl = Ok () →
     ∀ s, s ∈ tl → (Segment.start s < hi)%Z → (Segment.end_ s > lo)%Z →
          slice tl lo hi = Ok [Segment.mk lo hi (Segment.value s)]).
Proof.
  intros Hgt. split.
  - rewrite slice_clipped. split.
    + intros [= E%clipped_nil_inv] s Hs [? ?].
      assert (s ∈ filter (overlaps lo hi) tl) as Hin.
      { apply list_elem_of_filter. unfold overlaps. split; [lia|done]. }
      rewrite E in Hin. by apply elem_of_nil in Hin.
    + intros H. rewrite filter_none; [done|]. apply Forall_forall.
      intros s Hs Ho. apply (H s Hs). unfold overlaps in Ho. lia.
  - intros (a & b & Hc)%validate_chain s Hin H1 H2.
    rewrite slice_clipped.
    rewrite (filter_point lo hi a b tl s) by (done || lia || (unfold overlaps; lia)).
    unfold clipped, clip. simpl. by rewrite !decide_True by lia.
Qed.

End SliceProperties.

Section Construction.

Context {T : Type}.
Implicit Types (df segments : DataFrame T) (s r : Segment.t T).

Lemma messages_distinct :
  NoDup [msg_empty; msg_columns; msg_start_dtype; msg_end_dtype;
         msg_sorted; msg_contiguous; msg_interval].
Proof. apply (bool_decide_unpack _). vm_compute. exact I. Qed.

(** C2 (amended).  [from_segments] runs its checks in order on the list as
    given, each with its own message, and returns that list unchanged when
    all pass: the list is not empty, the 'start' and the 'end' column hold
    instants of the nanosecond range, and then the invariants on the
    order of the starts, on contiguity and on the intervals.  On a
    non-empty list with instants in that range the sort check rejects
    exactly the lists whose starts are not non-decreasing; a list with two
    equal neighbouring starts whose starts are non-decreasing passes the
    sort check and fails with the contiguity or the interval message. *)
Theorem from_segments_checks segments :
  from_segments segments =
    (if decide (segments = []) then Raise (AssertionError msg_empty)
     else if decide (¬ Forall (λ s, ns_range (Segment.start s)) segments)
          then Raise (AssertionError msg_start_dtype)
     else if decide (¬ Forall (λ s, ns_range (Segment.end_ s)) segments)
          then Raise (AssertionError msg_end_dtype)
     else if decide (¬ Sorted Z.le (Segment.start <$> segments))
          then Raise (AssertionError msg_sorted)
     else if decide (¬ contiguous segments) then Raise (AssertionError msg_contiguous)
     else if decide (¬ Forall (λ s, (Segment.start s < Segment.end_ s)%Z) segments)
          then Raise (AssertionError msg_interval)
     else Ok segments)
  ∧ NoDup [msg_empty; msg_columns; msg_start_dtype; msg_end_dtype;
           msg_sorted; msg_contiguous; msg_interval]
  ∧ (segments ≠ [] → ns_frame segments → ¬ Sorted Z.le (Segment.start <$> segments) →
     from_segments segments = Raise (AssertionError msg_sorted))
  ∧ (ns_frame segments → Sorted Z.le (Segment.start <$> segments) →
     ∀ i r r', segments !! i = Some r → segments !! S i = Some r' →
       Segment.start r = Segment.start r' →
       from_segments segments = Raise (AssertionError msg_contiguous)
       ∨ from_segments segments = Raise (AssertionError msg_interval)).
Proof.
  assert (from_segments segments =
    (if decide (segments = []) then Raise (AssertionError msg_empty)
     else if decide (¬ Forall (λ s, ns_range (Segment.start s)) segments)
          then Raise (AssertionError msg_start_dtype)
     else if decide (¬ Forall (λ s, ns_range (Segment.end_ s)) segments)
          then Raise (AssertionError msg_end_dtype)
     else if decide (¬ Sorted Z.le (Segment.start <$> segments))
          then Raise (AssertionError msg_sorted)
     else if decide (¬ contiguous segments) then Raise (AssertionError msg_contiguous)
     else if decide (¬ Forall (λ s, (Segment.start s < Segment.end_ s)%Z) segments)
          then Raise (AssertionError msg_interval)
     else Ok segments)) as Hcascade.
  { unfold from_segments. rewrite validate_cascade. by repeat case_decide. }
  split; [done|]. split; [apply messages_distinct|]. split.
  - intros Hne [H1 H2]%ns_frame_columns Hs. rewrite Hcascade.
    rewrite decide_False by done.
    rewrite decide_False by (by intros []).
    rewrite decide_False by (by intros []).
    by rewrite decide_True.
  - intros [H1 H2]%ns_frame_columns Hs i r r' Hr Hr' Heq. rewrite Hcascade.
    rewrite decide_False by (by intros ->).
    rewrite decide_False by (by intros []).
    rewrite decide_False by (by intros []).
    rewrite decide_False by (by intros []).
    destruct (decide (¬ contiguous segments)) as [|Hc]; [by left|].
    right. apply dec_stable in Hc. rewrite decide_True; [done|].
    intros Hf. rewrite Forall_lookup in Hf.
    pose proof (Hf _ _ Hr). pose proof (Hc _ _ _ Hr Hr'). lia.
Qed.

Lemma ns_frame_map_values {U} (func : T → U) df :
  ns_frame df →
  ns_frame ((λ r, Segment.mk (Segment.start r) (Segment.end_ r) (func (Segment.value r))) <$> df).
Proof. unfold ns_frame. rewrite Forall_fmap. intros H. eapply Forall_impl; [exact H|]. by intros r. Qed.

Lemma validate_map_values {U} (func : T → U) df :
  _validate ((λ r, Segment.mk (Segment.start r) (Segment.end_ r) (func (Segment.value r))) <$> df)
  = _validate df.
Proof.
  unfold _validate. rewrite length_fmap, <- !list_fmap_compose.
  replace (forallb _ (_ <$> df))
    with (forallb (λ s, bool_decide (Segment.start s < Segment.end_ s)%Z) df); [done|].
  induction df as [|r df IH]; [done|]. simpl. by rewrite IH.
Qed.

Lemma chain_map_values {U} (func : T → U) a b df :
  chain a b df →
  chain a b ((λ r, Segment.mk (Segment.start r) (Segment.end_ r) (func (Segment.value r))) <$> df).
Proof.
  induction 1 as [s Hs|s b df Hs Hc IH]; simpl.
  - by apply chain_one_mk.
  - by apply chain_cons_mk.
Qed.

(** C8.  On a valid Timeline, [map(func)] returns the frame passed to the
    validating constructor, the validation succeeds, and the result has
    the same rows with each value replaced by [func] of it. *)
Theorem map_keeps_boundaries {U} (tl : Timeline.t T) (func : T → U) :
  _validate tl = Ok () →
  ∃ out,
    Timeline.map tl func = Ok out
    ∧ Timeline.map tl func = from_dataframe out
    ∧ _validate out = Ok ()
    ∧ length out = length tl
    ∧ ∀ i r, tl !! i = Some r →
        out !! i = Some (Segment.mk (Segment.start r) (Segment.end_ r) (func (Segment.value r))).
Proof.
  intros [(a & b & Hc) Hns]%validate_valid.
  assert (_validate ((λ r, Segment.mk (Segment.start r) (Segment.end_ r)
                             (func (Segment.value r))) <$> tl) = Ok ()) as Hv.
  { apply (validate_intro a b); [by apply chain_map_values|by apply ns_frame_map_values]. }
  eexists. unfold Timeline.map, from_dataframe. rewrite Hv. simpl.
  split; [reflexivity|]. rewrite Hv. simpl.
  split; [done|]. split; [done|]. split; [by rewrite length_fmap|].
  intros i r Hr. by rewrite list_lookup_fmap, Hr.
Qed.

End Construction.

Section Merge.

Context {T : Type} `{EqDecision T} `{PyValue T}.
Implicit Types (df rows merged run : DataFrame T) (s r cur row : Segment.t T).

Lemma segment_eta s : Segment.mk (Segment.start s) (Segment.end_ s) (Segment.value s) = s.
Proof. by destruct s. Qed.

Lemma merge_step_snoc merged cur row :
  merge_step (merged ++ [cur]) row =
    if py_eq (Segment.value cur) (Segment.value row)
    then merged ++ [Segment.mk (Segment.start cur) (Segment.end_ row) (Segment.value row)]
    else (merged ++ [cur]) ++ [Segment.mk (Segment.start row) (Segment.end_ row) (Segment.value row)].
Proof.
  unfold merge_step. rewrite last_snoc.
  destruct (py_eq (Segment.value cur) (Segment.value row)); [|done].
  rewrite length_app. simpl.
  replace (pred (length merged + 1)) with (length merged + 0) by lia.
  by rewrite insert_app_r.
Qed.

(** The loop, started with a non-empty accumulator. *)
Lemma foldl_merge_step merged cur rows :
  foldl merge_step (merged ++ [cur]) rows = merged ++ merge_loop cur rows.
Proof.
  revert merged cur. induction rows as [|row rest IH]; intros merged cur; [done|].
  simpl. rewrite merge_step_snoc.
  destruct (py_eq (Segment.value cur) (Segment.value row)).
  - apply IH.
  - rewrite IH. by rewrite <- app_assoc.
Qed.

Lemma merge_adjacent_loop s rest :
  merge_adjacent (s :: rest)
  = from_segments
      (merge_loop (Segment.mk (Segment.start s) (Segment.end_ s) (iterrows_value (Segment.value s)))
                  (Pd.iterrows rest)).
Proof.
  unfold merge_adjacent. f_equal.
  apply (foldl_merge_step [] (Segment.mk _ _ _) (Pd.iterrows rest)).
Qed.





Lemma iterrows_fixed df :
  Forall (λ r, iterrows_value (Segment.value r) = Segment.value r) df → Pd.iterrows df = df.
Proof.
  unfold Pd.iterrows. induction 1 as [|r df Hr _ IH]; [done|].
  rewrite fmap_cons, IH, Hr. by rewrite segment_eta.
Qed.






(** On plain values the loop of the code is the loop on equal values. *)
Lemma plain_values_sub df df' :
  (∀ r', r' ∈ df' → ∃ r, r ∈ df ∧ Segment.value r = Segment.value r') →
  plain_values df → plain_values df'.
Proof.
  intros Hsub Hp r1 (x1 & Hx1 & <-)%Hsub. destruct (Hp x1 Hx1) as [Hc Heq].
  split; [done|]. intros r2 (x2 & Hx2 & <-)%Hsub. by apply Heq.
Qed.

Lemma plain_values_iterrows df : plain_values df → Pd.iterrows df = df.
Proof.
  intros Hp. apply iterrows_fixed, Forall_forall. intros r Hr. by apply Hp.
Qed.

Lemma merge_loop_absorb cur rows :
  plain_values (cur :: rows) → merge_loop cur rows = absorb cur rows.
Proof.
  revert cur. induction rows as [|row rest IH]; intros cur Hp; [done|]. simpl.
  destruct (Hp cur ltac:(by left)) as [_ Heq].
  rewrite (Heq row) by (right; by left).
  case_bool_decide as Hv.
  - rewrite decide_True by done. apply IH.
    eapply plain_values_sub; [|exact Hp].
    intros r' [->|Hr']%elem_of_cons.
    + exists row. split; [right; by left|done].
    + exists r'. split; [by do 2 right|done].
  - rewrite decide_False by done. f_equal. apply IH.
    eapply plain_values_sub; [|exact Hp].
    intros r' [->|Hr']%elem_of_cons.
    + exists row. split; [right; by left|done].
    + exists r'. split; [by do 2 right|done].
Qed.

(** Integer values are plain. *)
Lemma int_values_plain (df : DataFrame Z) : plain_values df.
Proof. by intros r _. Qed.

Lemma merge_adjacent_absorb s rest :
  plain_values (s :: rest) → merge_adjacent (s :: rest) = from_segments (absorb s rest).
Proof.
  intros Hp. rewrite merge_adjacent_loop.
  destruct (Hp s ltac:(by left)) as [-> _]. rewrite segment_eta.
  rewrite plain_values_iterrows.
  - by rewrite merge_loop_absorb.
  - eapply plain_values_sub; [|exact Hp]. intros r' Hr'. exists r'. split; [by right|done].
Qed.

Lemma absorb_head cur rows :
  ∃ r tail, absorb cur rows = r :: tail ∧ Segment.start r = Segment.start cur
            ∧ Segment.value r = Segment.value cur.
Proof.
  revert cur. induction rows as [|row rest IH]; intros cur; simpl.
  - by eexists _, _.
  - case_decide as Hv.
    + destruct (IH (Segment.mk (Segment.start cur) (Segment.end_ row) (Segment.value row)))
        as (r & tail & -> & ? & ?). simpl in *. eexists _, _. split; [done|]. split; congruence.
    + by eexists _, _.
Qed.

(** The rows the loop leaves form a chain over the same span. *)
Lemma chain_absorb a b cur rows : chain a b (cur :: rows) → chain a b (absorb cur rows).
Proof.
  revert a cur. induction rows as [|row rest IH]; intros a cur Hc; [done|]. simpl.
  inversion Hc as [|? ? ? Hcur Hc']; subst.
  case_decide.
  - apply IH. inversion Hc' as [? Hrow|? ? ? Hrow Hc'']; subst.
    + apply chain_one_mk. lia.
    + apply chain_cons_mk; [lia|done].
  - apply chain_cons; [done|]. apply IH. by rewrite segment_eta.
Qed.

Lemma no_adjacent_equal_singleton s : no_adjacent_equal [s].
Proof. intros [|i] ?? H1 H2; simplify_eq/=. Qed.

Lemma no_adjacent_equal_cons s r df :
  no_adjacent_equal (s :: r :: df)
  ↔ Segment.value s ≠ Segment.value r ∧ no_adjacent_equal (r :: df).
Proof.
  split.
  - intros Hn. split; [by apply (Hn 0)|]. intros i a b H1 H2. by apply (Hn (S i)).
  - intros [E Hn] [|i] a b H1 H2; simplify_eq/=; [done|]. by eapply Hn.
Qed.

(** No two neighbouring rows of the result carry the same value. *)
Lemma absorb_no_adjacent_equal cur rows : no_adjacent_equal (absorb cur rows).
Proof.
  revert cur. induction rows as [|row rest IH]; intros cur; simpl.
  - apply no_adjacent_equal_singleton.
  - case_decide as Hv; [apply IH|].
    specialize (IH (Segment.mk (Segment.start row) (Segment.end_ row) (Segment.value row))).
    destruct (absorb_head (Segment.mk (Segment.start row) (Segment.end_ row) (Segment.value row)) rest)
      as (r & tail & E & _ & Hr).
    rewrite E in *. apply no_adjacent_equal_cons. split; [|done]. simpl in Hr. congruence.
Qed.

(** The loop changes nothing when no two neighbours are equal. *)
Lemma absorb_fixed cur rows : no_adjacent_equal (cur :: rows) → absorb cur rows = cur :: rows.
Proof.
  revert cur. induction rows as [|row rest IH]; intros cur Hn; [done|]. simpl.
  apply no_adjacent_equal_cons in Hn as [Hv Hn].
  rewrite decide_False by done. rewrite segment_eta. f_equal. by apply IH.
Qed.

(** [runs] puts the first row at the head of the first run, and the rest
    of that run depends on the first row through its value only. *)
Lemma runs_cons s rest :
  ∃ run others,
    runs (s :: rest) = (s :: run) :: others
    ∧ ∀ s', Segment.value s' = Segment.value s → runs (s' :: rest) = (s' :: run) :: others.
Proof.
  simpl. destruct (runs rest) as [|[|r run] others].
  - by eexists _, _.
  - by eexists _, _.
  - destruct (decide (Segment.value s = Segment.value r)) as [E|E].
    + eexists _, _. split; [done|]. intros s' Hs'. rewrite decide_True; [done|congruence].
    + eexists _, _. split; [done|]. intros s' Hs'. rewrite decide_False; [done|congruence].
Qed.

Lemma runs_partition df : run_partition (runs df) df.
Proof.
  induction df as [|s rest (Hcat & Hruns & Hadj)]; [by repeat split|].
  simpl. destruct (runs rest) as [|[|r run] others] eqn:E.
  - simpl in Hcat. subst rest. split; [done|]. split.
    + repeat constructor; [done|]. by intros ?? ->%list_elem_of_singleton ->%list_elem_of_singleton.
    + intros [|i] ?? H1 H2; simplify_eq/=.
  - apply Forall_cons in Hruns as [[? _] _]. done.
  - apply Forall_cons in Hruns as [[_ Hsame] Hruns].
    destruct (decide (Segment.value s = Segment.value r)) as [Hv|Hv].
    + split; [by rewrite <- Hcat|]. split.
      * constructor; [|done]. split; [done|].
        assert (∀ x, x ∈ s :: r :: run → Segment.value x = Segment.value r) as Hall.
        { intros x [->|Hx]%elem_of_cons; [done|]. apply Hsame; [done|by left]. }
        intros x x' Hx Hx'. rewrite (Hall x Hx), (Hall x' Hx'). done.
      * intros [|i] run1 run2 H1 H2 x x' Hx Hx'; simplify_eq/=.
        -- apply elem_of_cons in Hx as [->|Hx].
           ++ rewrite Hv. apply (Hadj 0 (r :: run) run2); [done..|by left|done].
           ++ by apply (Hadj 0 (r :: run) run2).
        -- by apply (Hadj (S i) run1 run2).
    + split; [by rewrite <- Hcat|]. split.
      * constructor; [|by constructor].
        split; [done|]. by intros ?? ->%list_elem_of_singleton ->%list_elem_of_singleton.
      * intros [|i] run1 run2 H1 H2 x x' Hx Hx'; simplify_eq/=.
        -- apply list_elem_of_singleton in Hx as ->.
           rewrite (Hsame x' r Hx'); [done|by left].
        -- by apply (Hadj i run1 run2).
Qed.

(** Each row the loop leaves replaces one run, in order. *)
Lemma absorb_spans cur rows : Forall2 spans (runs (cur :: rows)) (absorb cur rows).
Proof.
  revert cur. induction rows as [|row rest IH]; intros cur.
  - repeat constructor. exists cur, cur. by rewrite segment_eta.
  - destruct (runs_cons row rest) as (run & others & E & Esame).
    change (runs (cur :: row :: rest)) with
      (match runs (row :: rest) with
       | (r :: run) :: others =>
           if decide (Segment.value cur = Segment.value r)
           then (cur :: r :: run) :: others else [cur] :: (r :: run) :: others
       | _ => [[cur]]
       end).
    rewrite E. simpl absorb. case_decide as Hv.
    + specialize (IH (Segment.mk (Segment.start cur) (Segment.end_ row) (Segment.value row))).
      rewrite (Esame (Segment.mk _ _ _)) in IH by done.
      inversion IH as [|? seg ? segs Hspan Hrest]; subst.
      constructor; [|done].
      destruct Hspan as (first & final & Hfirst & Hfinal & ->). simplify_eq/=.
      exists cur. destruct run as [|r run].
      * simplify_eq/=. exists row. by rewrite Hv.
      * exists final. rewrite Hv. split; [done|]. split; [|done].
        by rewrite !last_cons_cons in *.
    + specialize (IH row). rewrite E in IH. rewrite segment_eta.
      constructor; [|done]. exists cur, cur. by rewrite segment_eta.
Qed.

(** C6 (amended).  On a valid Timeline whose values are plain (handed back
    unchanged by [iterrows], and compared by [==] as equality),
    [merge_adjacent] returns normally; its result has one row per maximal
    run of consecutive rows with equal values, in the original order,
    spanning from the first start to the last end of the run with the
    value of the run, and it satisfies the validator. *)
Theorem merge_adjacent_merges_runs (tl : Timeline.t T) :
  _validate tl = Ok () → plain_values tl →
  ∃ rs out,
    run_partition rs tl
    ∧ Forall2 spans rs out
    ∧ merge_adjacent tl = Ok out
    ∧ _validate out = Ok ().
Proof.
  intros [(a & b & Hc) Hns]%validate_valid Hp.
  destruct tl as [|s rest]; [by apply chain_nonempty in Hc|].
  pose proof (chain_absorb _ _ _ _ Hc) as Hout.
  assert (_validate (absorb s rest) = Ok ()) as Hvalid.
  { by apply (validate_inside a b (s :: rest) a b). }
  exists (runs (s :: rest)), (absorb s rest).
  split; [apply runs_partition|]. split; [apply absorb_spans|]. split; [|done].
  rewrite merge_adjacent_absorb by done. unfold from_segments. by rewrite Hvalid.
Qed.


End Merge.

Section Gaps.

Context {T : Type}.
Implicit Types (segments sorted filled : list (Segment.t T)) (s prev next : Segment.t T).

Lemma insert_by_start_perm s segments : insert_by_start s segments ≡ₚ s :: segments.
Proof.
  induction segments as [|y l IH]; simpl; [done|].
  case_bool_decide; [done|]. rewrite IH. apply Permutation_swap.
Qed.

Lemma sorted_by_start_perm segments : sorted_by_start segments ≡ₚ segments.
Proof.
  induction segments as [|s l IH]; simpl; [done|].
  unfold sorted_by_start in *. simpl. by rewrite insert_by_start_perm, IH.
Qed.

Lemma insert_by_start_sorted s segments :
  Sorted (λ a b, (Segment.start a ≤ Segment.start b)%Z) segments →
  Sorted (λ a b, (Segment.start a ≤ Segment.start b)%Z) (insert_by_start s segments).
Proof.
  induction 1 as [|y l Hl IH Hy]; simpl; [by repeat constructor|].
  case_bool_decide.
  - constructor; [by constructor|]. by constructor.
  - constructor; [done|]. destruct l as [|z l]; simpl.
    + constructor. lia.
    + apply HdRel_inv in Hy. case_bool_decide; constructor; lia.
Qed.

Lemma sorted_by_start_sorted segments :
  Sorted (λ a b, (Segment.start a ≤ Segment.start b)%Z) (sorted_by_start segments).
Proof.
  induction segments as [|s l IH]; [constructor|]. by apply insert_by_start_sorted.
Qed.

(** The sort is stable: segments with the same start keep their order. *)
Lemma insert_by_start_stable k s segments :
  filter (λ x, Segment.start x = k) (insert_by_start s segments)
  = filter (λ x, Segment.start x = k) (s :: segments).
Proof.
  induction segments as [|y l IH]; simpl; [done|].
  case_bool_decide as Hle; [done|].
  destruct (decide (Segment.start s = k)) as [Hs|Hs].
  - rewrite (filter_cons_True _ s) by done.
    rewrite !(filter_cons_False _ y) by lia.
    by rewrite IH, filter_cons_True.
  - rewrite (filter_cons_False _ s) by done.
    rewrite !(filter_cons _ y), IH. by rewrite filter_cons_False.
Qed.

Lemma sorted_by_start_stable k segments :
  filter (λ x, Segment.start x = k) (sorted_by_start segments)
  = filter (λ x, Segment.start x = k) segments.
Proof.
  induction segments as [|s l IH]; [done|].
  change (sorted_by_start (s :: l)) with (insert_by_start s (sorted_by_start l)).
  rewrite insert_by_start_stable, !(filter_cons _ s), IH. done.
Qed.

(** The loop, once it has appended a first segment. *)
Lemma fill_gaps_snoc gap_value i pre prev rest :
  fill_gaps gap_value (S i) rest (pre ++ [prev])
  = Ok (pre ++ gaps_filled gap_value (prev :: rest)).
Proof.
  revert i pre prev. induction rest as [|s rest IH]; intros i pre prev; [done|].
  cbn [fill_gaps]. rewrite (bool_decide_eq_true_2 (0 < S i)) by lia.
  rewrite getitem_last, last_snoc. cbn [mbind result_bind].
  rewrite segment_eta.
  change (gaps_filled gap_value (prev :: s :: rest)) with
    (if decide (Segment.end_ prev < Segment.start s)%Z
     then prev :: Segment.mk (Segment.end_ prev) (Segment.start s) gap_value
               :: gaps_filled gap_value (s :: rest)
     else prev :: gaps_filled gap_value (s :: rest)).
  case_bool_decide.
  - rewrite decide_True by done. rewrite IH. f_equal. by rewrite <- !app_assoc.
  - rewrite decide_False by done. rewrite IH. f_equal. by rewrite <- !app_assoc.
Qed.

Lemma fill_gaps_filled gap_value segments :
  fill_gaps gap_value 0 segments [] = Ok (gaps_filled gap_value segments).
Proof.
  destruct segments as [|s rest]; [done|].
  cbn [fill_gaps]. rewrite (bool_decide_eq_false_2 (0 < 0)) by lia.
  cbn [mbind result_bind]. rewrite segment_eta. apply (fill_gaps_snoc gap_value 0 []).
Qed.

Lemma gaps_filled_head gap_value s segments :
  ∃ tail, gaps_filled gap_value (s :: segments) = s :: tail.
Proof. destruct segments; simpl; [|case_decide]; by eexists. Qed.

(** Filling keeps the starts in order when no segment ends before it
    starts. *)
Lemma gaps_filled_sorted gap_value segments :
  Sorted (λ a b, (Segment.start a ≤ Segment.start b)%Z) segments →
  Forall (λ s, (Segment.start s ≤ Segment.end_ s)%Z) segments →
  Sorted Z.le (Segment.start <$> gaps_filled gap_value segments).
Proof.
  induction 1 as [|prev l Hl IH Hprev]; intros Hwf; [constructor|].
  apply Forall_cons in Hwf as [Hp Hwf]. specialize (IH Hwf).
  destruct l as [|next rest]; [repeat constructor|].
  apply HdRel_inv in Hprev.
  destruct (gaps_filled_head gap_value next rest) as [tail E].
  change (gaps_filled gap_value (prev :: next :: rest)) with
    (if decide (Segment.end_ prev < Segment.start next)%Z
     then prev :: Segment.mk (Segment.end_ prev) (Segment.start next) gap_value
               :: gaps_filled gap_value (next :: rest)
     else prev :: gaps_filled gap_value (next :: rest)).
  rewrite E in *. case_decide; simpl.
  - constructor; [constructor; [done|]|]; constructor; simpl; lia.
  - constructor; [done|]. constructor. lia.
Qed.

(** Two sorted neighbours of which the first does not end before the
    second starts stay neighbours after filling. *)
Lemma gaps_filled_neighbours gap_value segments k prev next :
  segments !! k = Some prev → segments !! S k = Some next →
  ¬ (Segment.end_ prev < Segment.start next)%Z →
  ∃ m, gaps_filled gap_value segments !! m = Some prev
       ∧ gaps_filled gap_value segments !! S m = Some next.
Proof.
  revert k. induction segments as [|s0 l IH]; intros k Hk HSk Hno; [done|].
  destruct l as [|s1 rest]; [done|].
  change (gaps_filled gap_value (s0 :: s1 :: rest)) with
    (if decide (Segment.end_ s0 < Segment.start s1)%Z
     then s0 :: Segment.mk (Segment.end_ s0) (Segment.start s1) gap_value
             :: gaps_filled gap_value (s1 :: rest)
     else s0 :: gaps_filled gap_value (s1 :: rest)).
  destruct k as [|k].
  - destruct (gaps_filled_head gap_value s1 rest) as [tail ->].
    simplify_eq/=. rewrite decide_False by done. by exists 0.
  - destruct (IH k Hk HSk Hno) as (m & Hm & HSm).
    case_decide; [by exists (S (S m))|by exists (S m)].
Qed.

(** Among segments none of which ends before it starts, an overlapping
    pair forces two neighbours to overlap. *)
Lemma overlapping_neighbours segments i j x y :
  Forall (λ s, (Segment.start s ≤ Segment.end_ s)%Z) segments →
  i < j → segments !! i = Some x → segments !! j = Some y →
  (Segment.start y < Segment.end_ x)%Z →
  ∃ k prev next, segments !! k = Some prev ∧ segments !! S k = Some next
                 ∧ (Segment.start next < Segment.end_ prev)%Z.
Proof.
  intros Hwf Hij. remember (j - i) as d eqn:Hd. revert i x Hij Hd.
  induction d as [|d IH]; intros i x Hij Hd Hx Hy Hov; [lia|].
  destruct (segments !! S i) as [z|] eqn:Hz.
  2:{ apply lookup_ge_None in Hz. apply lookup_lt_Some in Hy. lia. }
  destruct (decide (Segment.start z < Segment.end_ x)%Z) as [|Hno].
  { by exists i, x, z. }
  destruct (decide (S i = j)) as [<-|Hne]; [simplify_eq; lia|].
  rewrite Forall_lookup in Hwf. pose proof (Hwf _ _ Hz).
  apply (IH (S i) z); [lia|lia|done|done|lia].
Qed.

Lemma from_segments_with_gaps_filled segments gap_value :
  segments ≠ [] →
  from_segments_with_gaps segments gap_value
  = from_segments (gaps_filled gap_value (sorted_by_start segments)).
Proof.
  intros Hne. unfold from_segments_with_gaps.
  destruct segments as [|s rest]; [done|]. by rewrite fill_gaps_filled.
Qed.

(** A filler lies between two instants of the input. *)
Lemma gaps_filled_ns gap_value segments :
  ns_frame segments → ns_frame (gaps_filled gap_value segments).
Proof.
  unfold ns_frame. induction segments as [|prev [|next rest] IH]; intros Hns; [done..|].
  change (gaps_filled gap_value (prev :: next :: rest)) with
    (if decide (Segment.end_ prev < Segment.start next)%Z
     then prev :: Segment.mk (Segment.end_ prev) (Segment.start next) gap_value
               :: gaps_filled gap_value (next :: rest)
     else prev :: gaps_filled gap_value (next :: rest)).
  pose proof Hns as [[_ Hp] Hns']%Forall_cons. specialize (IH Hns').
  pose proof Hns' as [[Hn _] _]%Forall_cons.
  apply Forall_cons in Hns as [Hprev _].
  case_decide; [|by constructor].
  constructor; [done|]. by constructor.
Qed.

Lemma ns_frame_perm segments segments' :
  segments ≡ₚ segments' → ns_frame segments → ns_frame segments'.
Proof. unfold ns_frame. by intros ->. Qed.

(** C9 (amended).  On a non-empty input, [from_segments_with_gaps] sorts
    the segments by start (stably), inserts [(prev.end, next.start,
    gap_value)] between every two sorted neighbours with
    [prev.end < next.start], and passes the filled list to
    [from_segments].  When the instants of the input are in the nanosecond
    range, no input segment ends before it starts and two input segments
    overlap, two sorted neighbours overlap, nothing is inserted between
    them, and the construction fails with the contiguity message. *)
Theorem from_segments_with_gaps_fills segments gap_value :
  segments ≠ [] →
  let sorted := sorted_by_start segments in
  let filled := gaps_filled gap_value sorted in
  sorted ≡ₚ segments
  ∧ Sorted (λ a b, (Segment.start a ≤ Segment.start b)%Z) sorted
  ∧ (∀ k, filter (λ x, Segment.start x = k) sorted = filter (λ x, Segment.start x = k) segments)
  ∧ from_segments_with_gaps segments gap_value = from_segments filled
  ∧ (ns_frame segments →
     Forall (λ s, (Segment.start s ≤ Segment.end_ s)%Z) segments →
     ∀ i j a b, i ≠ j → segments !! i = Some a → segments !! j = Some b → overlapping a b →
       (∃ k prev next m,
           sorted !! k = Some prev ∧ sorted !! S k = Some next
           ∧ (Segment.start next < Segment.end_ prev)%Z
           ∧ filled !! m = Some prev ∧ filled !! S m = Some next)
       ∧ from_segments_with_gaps segments gap_value = Raise (AssertionError msg_contiguous)).
Proof.
  intros Hne sorted filled.
  pose proof (sorted_by_start_perm segments) as Hperm.
  pose proof (sorted_by_start_sorted segments) as Hsorted.
  split; [done|]. split; [done|]. split; [intros; apply sorted_by_start_stable|].
  split; [by apply from_segments_with_gaps_filled|].
  intros Hns Hwf i j a b Hij Ha Hb [Hab Hba].
  assert (Forall (λ s, (Segment.start s ≤ Segment.end_ s)%Z) sorted) as Hwf'.
  { unfold sorted. by rewrite Hperm. }
  assert (ns_frame filled) as [Hns1 Hns2]%ns_frame_columns.
  { apply gaps_filled_ns. eapply ns_frame_perm; [|exact Hns]. by symmetry. }
  symmetry in Hperm. apply Permutation_inj in Hperm as (_ & f & Hf & Hlook).
  rewrite Hlook in Ha, Hb.
  assert (f i ≠ f j) as Hfij by (intros E; by apply Hf in E).
  assert (∃ k prev next, sorted !! k = Some prev ∧ sorted !! S k = Some next
                         ∧ (Segment.start next < Segment.end_ prev)%Z)
    as (k & prev & next & Hk & HSk & Hov).
  { destruct (decide (f i < f j)).
    - by apply (overlapping_neighbours sorted (f i) (f j) a b).
    - apply (overlapping_neighbours sorted (f j) (f i) b a); [done|lia|done..]. }
  destruct (gaps_filled_neighbours gap_value sorted k prev next Hk HSk) as (m & Hm & HSm); [lia|].
  split; [by exists k, prev, next, m|].
  rewrite from_segments_with_gaps_filled by done. fold sorted. fold filled.
  unfold from_segments. rewrite validate_cascade.
  rewrite decide_False by (intros E; unfold filled in E; by rewrite E in Hm).
  rewrite decide_False by (by intros []).
  rewrite decide_False by (by intros []).
  rewrite decide_False by (intros []; by apply gaps_filled_sorted).
  rewrite decide_True; [done|].
  intros Hc. pose proof (Hc m prev next Hm HSm). lia.
Qed.

End Gaps.

Section Boundaries.

Context {T : Type}.
Implicit Types (timelines : list (Timeline.t T)) (tl df : Timeline.t T) (s r : Segment.t T).

Lemma elem_of_boundary_set timelines (acc : gset Z) b :
  b ∈ foldl (λ acc tl, acc ∪ list_to_set (Segment.start <$> tl)
                           ∪ list_to_set (Segment.end_ <$> tl)) acc timelines
  ↔ b ∈ acc ∨ ∃ tl s, tl ∈ timelines ∧ s ∈ tl
                      ∧ (b = Segment.start s ∨ b = Segment.end_ s).
Proof.
  revert acc. induction timelines as [|tl rest IH]; intros acc; simpl.
  - split; [by left|]. intros [? | (tl & s & Htl & _)]; [done|]. by apply elem_of_nil in Htl.
  - rewrite IH, !elem_of_union, !elem_of_list_to_set, !list_elem_of_fmap. split.
    + intros [ [ [?|(s & -> & Hs)] | (s & -> & Hs)] | (tl' & s & Htl' & Hs & Hb)].
      * by left.
      * right. exists tl, s. split; [by left|]. by split; [|left].
      * right. exists tl, s. split; [by left|]. by split; [|right].
      * right. exists tl', s. split; [by right|]. done.
    + intros [? | (tl' & s & [->|Htl']%elem_of_cons & Hs & Hb)].
      * by left; left; left.
      * left. destruct Hb as [-> | ->]; [left; right|right]; by exists s.
      * right. by exists tl', s.
Qed.

Lemma sorted_nodup_strict (l : list Z) : Sorted Z.le l → NoDup l → StronglySorted Z.lt l.
Proof.
  intros Hs%Sorted_StronglySorted Hn; [|apply _].
  induction Hs as [|x l Hl IH Hx]; [constructor|].
  apply NoDup_cons in Hn as [Hnin Hn]. constructor; [by apply IH|].
  rewrite Forall_forall in Hx |- *. intros y Hy.
  specialize (Hx y Hy). assert (x ≠ y) by (by intros ->). lia.
Qed.

Lemma boundaries_spec timelines : is_boundaries timelines (boundaries timelines).
Proof.
  unfold boundaries. split.
  - apply sorted_nodup_strict; [apply Sorted_merge_sort; apply _|].
    rewrite merge_sort_Permutation. apply NoDup_elements.
  - intros b. rewrite merge_sort_Permutation, elem_of_elements, elem_of_boundary_set.
    split; [|by right]. intros [Hb|?]; [|done]. by apply elem_of_empty in Hb.
Qed.

End Boundaries.

Section Sweep.

Context {T : Type}.
Implicit Types (dfs : list (DataFrame T)) (tl df : Timeline.t T) (s r : Segment.t T).
Implicit Types (b a e : Z) (idx : nat) (idxs pre : list nat).

Lemma getitem_nat {A} (l : list A) (j : nat) (x : A) :
  l !! j = Some x → Py.getitem l (Z.of_nat j) = Ok x.
Proof.
  intros Hj. pose proof (lookup_lt_Some _ _ _ Hj).
  unfold Py.getitem, Py.position.
  rewrite !bool_decide_eq_true_2 by lia. simpl. by rewrite Nat2Z.id, Hj.
Qed.

Lemma setitem_nat {A} (l : list A) (j : nat) (x : A) :
  j < length l → Py.setitem l (Z.of_nat j) x = Ok (<[j := x]> l).
Proof.
  intros Hj. unfold Py.setitem, Py.position.
  rewrite !bool_decide_eq_true_2 by lia. by rewrite Nat2Z.id.
Qed.

(** The cursor loop with enough fuel: it only moves forward, stays usable,
    and stops where its condition is false. *)
Lemma advance_exit fuel df b idx :
  length df ≤ fuel + idx + 1 →
  idx ≤ advance fuel df b idx
  ∧ (cursor_ok b df idx → cursor_ok b df (advance fuel df b idx))
  ∧ (∀ next, df !! (advance fuel df b idx + 1) = Some next → (b < Segment.start next)%Z).
Proof.
  revert idx. induction fuel as [|fuel IH]; intros idx Hfuel; simpl.
  - split; [done|]. split; [done|]. intros next Hnext.
    apply lookup_lt_Some in Hnext. lia.
  - destruct (df !! (idx + 1)) as [next|] eqn:Hnext.
    + case_bool_decide as Hle.
      * destruct (IH (idx + 1)) as (Hmono & Hok & Hexit); [lia|].
        split; [lia|]. split; [|done]. intros _. apply Hok. by exists next.
      * split; [done|]. split; [done|]. intros next' Hnext'. simplify_eq. lia.
    + split; [done|]. split; [done|]. intros next' Hnext'. simplify_eq.
Qed.

(** Any fuel that covers the rows after the cursor gives the same stop. *)
Lemma advance_fuel fuel fuel' df b idx :
  length df ≤ fuel + idx + 1 → length df ≤ fuel' + idx + 1 →
  advance fuel df b idx = advance fuel' df b idx.
Proof.
  revert fuel' idx. induction fuel as [|fuel IH]; intros fuel' idx Hf Hf'.
  - destruct fuel' as [|fuel']; [done|]. simpl.
    rewrite (proj2 (lookup_ge_None df (idx + 1))) by lia. done.
  - destruct fuel' as [|fuel']; simpl.
    + rewrite (proj2 (lookup_ge_None df (idx + 1))) by lia. done.
    + destruct (df !! (idx + 1)) as [next|] eqn:Hnext; [|done].
      case_bool_decide; [|done]. apply IH; lia.
Qed.

(** On a chain the instant [b] lies in exactly one row. *)
Lemma filter_contains a e df s b :
  chain a e df → s ∈ df → (Segment.start s ≤ b)%Z → (b < Segment.end_ s)%Z →
  filter (λ s, (Segment.start s ≤ b ∧ b < Segment.end_ s)%Z) df = [s].
Proof.
  induction 1 as [s0 Hs0|s0 e df Hs0 Hc IH]; intros Hin H1 H2.
  - apply list_elem_of_singleton in Hin as ->. by rewrite filter_cons_True.
  - apply elem_of_cons in Hin as [->|Hin].
    + rewrite filter_cons_True by done. f_equal. apply filter_none, Forall_forall.
      intros r Hr. apply (chain_inside _ _ _ _ Hc) in Hr. lia.
    + rewrite filter_cons_False; [by apply IH|].
      apply (chain_inside _ _ _ _ Hc) in Hin. lia.
Qed.

(** From a usable position the cursor stops on the row that contains the
    boundary, whose value is the value of the Timeline there. *)
Lemma cursor_lands a e df b idx :
  chain a e df → cursor_ok b df idx → (b < e)%Z →
  ∃ r, df !! advance (length df) df b idx = Some r
       ∧ (Segment.start r ≤ b)%Z ∧ (b < Segment.end_ r)%Z
       ∧ value_at df b = Some (Segment.value r).
Proof.
  intros Hc Hok Hb.
  destruct (advance_exit (length df) df b idx) as (_ & Hok' & Hexit); [lia|].
  destruct (Hok' Hok) as (r & Hr & Hstart).
  assert (b < Segment.end_ r)%Z as Hend.
  { destruct (df !! (advance (length df) df b idx + 1)) as [next|] eqn:Hnext.
    - specialize (Hexit next eq_refl).
      replace (advance (length df) df b idx + 1) with (S (advance (length df) df b idx))
        in Hnext by lia.
      rewrite (chain_contiguous _ _ _ Hc _ _ _ Hr Hnext). done.
    - apply lookup_ge_None in Hnext. pose proof (lookup_lt_Some _ _ _ Hr).
      pose proof (chain_last _ _ _ Hc) as Hlast. rewrite last_lookup in Hlast.
      replace (pred (length df)) with (advance (length df) df b idx) in Hlast by lia.
      rewrite Hr in Hlast. simplify_eq/=. done. }
  exists r. split; [done|]. split; [done|]. split; [done|].
  unfold value_at. rewrite (filter_contains a e df r b); [done..| |done|done].
  by eapply list_elem_of_lookup_2.
Qed.

Lemma imap_shift k dfs :
  imap ((λ j (df : DataFrame T), (k + j, df)) ∘ S) dfs = imap (λ j df, (S k + j, df)) dfs.
Proof. apply imap_ext. intros j df _. simpl. f_equal. lia. Qed.

(** One pass over the timelines at boundary [b]. *)
Lemma sweep_row_spec a e b dfs :
  Forall (chain a e) dfs → (b < e)%Z →
  ∀ k pre idxs values,
    length pre = k → Forall2 (cursor_ok b) dfs idxs →
    ∃ idxs' vs,
      sweep_row b (imap (λ j df, (k + j, df)) dfs) (pre ++ idxs) values
      = Ok (pre ++ idxs', values ++ vs)
      ∧ Forall2 (λ df v, value_at df b = Some v) dfs vs
      ∧ ∀ b', (b ≤ b')%Z → Forall2 (cursor_ok b') dfs idxs'.
Proof.
  intros Hchains Hb. induction Hchains as [|df dfs Hc _ IH]; intros k pre idxs values Hk Hok.
  - apply Forall2_nil_inv_l in Hok as ->. exists [], []. simpl.
    rewrite !app_nil_r. repeat split; constructor.
  - apply Forall2_cons_inv_l in Hok as (idx & idxs0 & Hidx & Hok & ->).
    destruct (cursor_lands _ _ _ _ _ Hc Hidx Hb) as (r & Hr & Hstart & Hend & Hval).
    rewrite imap_cons, imap_shift. cbn [sweep_row].
    replace (k + 0) with k by lia.
    assert ((pre ++ idx :: idxs0) !! k = Some idx) as Hget.
    { rewrite lookup_app_r by lia. by replace (k - length pre) with 0 by lia. }
    rewrite (getitem_nat _ _ _ Hget). cbn [mbind result_bind].
    rewrite setitem_nat by (rewrite length_app; simpl; lia). cbn [mbind result_bind].
    replace (<[k := advance (length df) df b idx]> (pre ++ idx :: idxs0))
      with ((pre ++ [advance (length df) df b idx]) ++ idxs0).
    2:{ rewrite <- app_assoc. simpl. replace k with (length pre + 0) by lia.
        by rewrite insert_app_r. }
    assert (((pre ++ [advance (length df) df b idx]) ++ idxs0) !! k
            = Some (advance (length df) df b idx)) as Hget'.
    { rewrite <- app_assoc. rewrite lookup_app_r by lia.
      by replace (k - length pre) with 0 by lia. }
    rewrite (getitem_nat _ _ _ Hget'). cbn [mbind result_bind].
    unfold Pd.at_. rewrite Hr. cbn [mbind result_bind].
    destruct (IH (S k) (pre ++ [advance (length df) df b idx]) idxs0
                 (values ++ [Segment.value r])) as (idxs' & vs & Hrun & Hvs & Hnext);
      [rewrite length_app; simpl; lia|done|].
    exists (advance (length df) df b idx :: idxs'), (Segment.value r :: vs).
    split; [|split].
    + rewrite Hrun. by rewrite <- !app_assoc.
    + by constructor.
    + intros b' Hb'. constructor; [|by apply Hnext]. exists r. split; [done|lia].
Qed.

Lemma sweep_unfold dfs b1 b2 rest idxs (segments : DataFrame (list T)) :
  sweep dfs (b1 :: b2 :: rest) idxs segments
  = ('(idxs, values) ← sweep_row b1 (imap pair dfs) idxs [];
     sweep dfs (b2 :: rest) idxs (segments ++ [Segment.mk b1 b2 values])).
Proof. reflexivity. Qed.

(** The loop over the boundaries: one output row per pair of consecutive
    boundaries. *)
Lemma sweep_spec a e dfs :
  Forall (chain a e) dfs →
  ∀ bs idxs segments,
    StronglySorted Z.lt bs → Forall (λ b, (b ≤ e)%Z) bs →
    (∀ b1, head bs = Some b1 → Forall2 (cursor_ok b1) dfs idxs) →
    ∃ rows,
      sweep dfs bs idxs segments = Ok (segments ++ rows)
      ∧ Forall2 (λ p row, product_row dfs p row) (consecutive_pairs bs) rows.
Proof.
  intros Hchains bs. induction bs as [|b1 [|b2 rest] IH]; intros idxs segments Hs Hle Hok.
  - exists []. by rewrite app_nil_r.
  - exists []. by rewrite app_nil_r.
  - apply StronglySorted_inv in Hs as [Hs Hb1].
    apply Forall_cons in Hb1 as [Hb12 _].
    apply Forall_cons in Hle as [_ Hle]. pose proof Hle as [Hb2 _]%Forall_cons.
    destruct (sweep_row_spec a e b1 dfs Hchains ltac:(lia) 0 [] idxs [] eq_refl (Hok b1 eq_refl))
      as (idxs' & vs & Hrun & Hvs & Hnext).
    rewrite sweep_unfold.
    change (imap pair dfs) with (imap (λ j (df : DataFrame T), (0 + j, df)) dfs).
    change idxs with ([] ++ idxs) at 1. rewrite Hrun. cbn [mbind result_bind app].
    destruct (IH idxs' (segments ++ [Segment.mk b1 b2 vs]) Hs Hle) as (rows & Hrows & Hprod).
    { intros ? [= <-]. apply Hnext. lia. }
    exists (Segment.mk b1 b2 vs :: rows). split.
    + rewrite Hrows. by rewrite <- app_assoc.
    + change (consecutive_pairs (b1 :: b2 :: rest))
        with ((b1, b2) :: consecutive_pairs (b2 :: rest)).
      constructor; [|done]. by repeat split.
Qed.

End Sweep.

Section CrossProduct.

Context {T : Type}.
Implicit Types (timelines : list (Timeline.t T)) (tl df : Timeline.t T) (s r : Segment.t T).

Lemma mapM_Ok {A B} (f : A → result B) (l : list A) (k : list B) :
  Forall2 (λ x y, f x = Ok y) l k → mapM f l = Ok k.
Proof.
  induction 1 as [|x y l k Hx _ IH]; [done|].
  cbn [mapM]. rewrite Hx. cbn [mbind result_bind].
  change (match mapM f l with Ok a => Ok (y :: a) | Raise e => Raise e end = Ok (y :: k)).
  by rewrite IH.
Qed.

Lemma all_equal_first_const (a : Z) (l : list Z) :
  Forall (λ x, x = a) l → Py.all_equal_first l = true.
Proof.
  intros Hl. destruct l as [|x0 l]; [done|]. unfold Py.all_equal_first.
  apply forallb_forall. intros x Hx%list_elem_of_In. apply bool_decide_eq_true.
  rewrite Forall_forall in Hl. rewrite (Hl x Hx). symmetry. apply Hl. by left.
Qed.

Lemma consecutive_pairs_length (bs : list Z) :
  length (consecutive_pairs bs) = length bs - 1.
Proof.
  induction bs as [|b1 [|b2 rest] IH]; [done..|].
  change (consecutive_pairs (b1 :: b2 :: rest)) with ((b1, b2) :: consecutive_pairs (b2 :: rest)).
  simpl in *. lia.
Qed.

Lemma chain_first a e df : chain a e df → ∃ s, s ∈ df ∧ Segment.start s = a.
Proof. destruct 1 as [s|s]; exists s; (split; [by left|done]). Qed.

Lemma chain_final a e df : chain a e df → ∃ s, s ∈ df ∧ Segment.end_ s = e.
Proof.
  intros Hc. apply chain_last in Hc.
  destruct (last df) as [s|] eqn:Hlast; simplify_eq/=.
  exists s. split; [|done]. by apply last_Some_elem_of.
Qed.

Lemma sorted_last_max (bs : list Z) y :
  StronglySorted Z.lt bs → last bs = Some y → ∀ x, x ∈ bs → (x ≤ y)%Z.
Proof.
  induction 1 as [|b bs Hs IH Hb]; intros Hlast x Hx; [by apply elem_of_nil in Hx|].
  destruct bs as [|b' bs'].
  - simplify_eq/=. apply list_elem_of_singleton in Hx. lia.
  - rewrite last_cons_cons in Hlast. apply elem_of_cons in Hx as [->|Hx]; [|by apply IH].
    rewrite Forall_forall in Hb. pose proof (Hb y (last_Some_elem_of _ _ Hlast)). lia.
Qed.

Lemma pairs_chain_last {U} (rest : list Z) :
  ∀ b1 b2 (rows : DataFrame U),
    StronglySorted Z.lt (b1 :: b2 :: rest) →
    Forall2 (λ p row, Segment.start row = p.1 ∧ Segment.end_ row = p.2)
            (consecutive_pairs (b1 :: b2 :: rest)) rows →
    ∃ y, chain b1 y rows ∧ last (b1 :: b2 :: rest) = Some y.
Proof.
  induction rest as [|b3 rest IH]; intros b1 b2 rows Hs Hrows.
  - apply Forall2_cons_inv_l in Hrows as (row & rows' & [H1 H2] & Hnil & ->).
    apply Forall2_nil_inv_l in Hnil as ->. simpl in *.
    apply StronglySorted_inv in Hs as [_ [? _]%Forall_cons].
    exists b2. split; [|done]. rewrite <- H1, <- H2. apply chain_one. lia.
  - change (consecutive_pairs (b1 :: b2 :: b3 :: rest))
      with ((b1, b2) :: consecutive_pairs (b2 :: b3 :: rest)) in Hrows.
    apply Forall2_cons_inv_l in Hrows as (row & rows' & [H1 H2] & Hrows & ->).
    simpl in H1, H2. apply StronglySorted_inv in Hs as [Hs [? _]%Forall_cons].
    destruct (IH b2 b3 rows' Hs Hrows) as (y & Hy & Hlast).
    exists y. split; [|by rewrite last_cons_cons].
    rewrite <- H1. apply chain_cons; [lia|]. by rewrite H2.
Qed.

(** The product of valid timelines over one span is a chain over that
    span, with one row per pair of consecutive boundaries. *)
Lemma cross_product_chain timelines a e :
  timelines ≠ [] → Forall (chain a e) timelines → ns_range a → ns_range e →
  ∃ out,
    cross_product timelines = Ok out
    ∧ chain a e out
    ∧ Forall2 (product_row timelines) (consecutive_pairs (boundaries timelines)) out.
Proof.
  intros Hne Hchains Hna Hne'.
  pose proof (boundaries_spec timelines) as [Hsorted Hmem].
  assert (∀ b, b ∈ boundaries timelines → (a ≤ b ∧ b ≤ e)%Z) as Hrange.
  { intros b (tl & s & Htl & Hs & Hb)%Hmem.
    rewrite Forall_forall in Hchains.
    pose proof (chain_inside _ _ _ _ (Hchains tl Htl) Hs). lia. }
  destruct (sweep_spec a e timelines Hchains (boundaries timelines)
              (replicate (length timelines) 0) []) as (rows & Hrows & Hprod).
  { done. }
  { apply Forall_forall. intros b Hb. by apply Hrange. }
  { intros b1 Hb1. assert (a ≤ b1)%Z as Hab1.
    { apply Hrange. destruct (boundaries timelines); simplify_eq/=. by left. }
    clear -Hchains Hab1. induction Hchains as [|tl tls Hc _ IH]; [constructor|].
    simpl. constructor; [|done]. destruct Hc as [s|s]; exists s; (split; [done|lia]). }
  exists rows.
  assert (chain a e rows) as Hout.
  { destruct timelines as [|tl0 tls]; [done|].
    pose proof Hchains as [Hc0 _]%Forall_cons.
    destruct (chain_first _ _ _ Hc0) as (s0 & Hs0 & Hstart0).
    destruct (chain_final _ _ _ Hc0) as (s1 & Hs1 & Hend1).
    pose proof (chain_lt _ _ _ Hc0) as Hae.
    assert (a ∈ boundaries (tl0 :: tls)) as Ha.
    { apply Hmem. exists tl0, s0. split; [by left|]. split; [done|by left]. }
    assert (e ∈ boundaries (tl0 :: tls)) as He.
    { apply Hmem. exists tl0, s1. split; [by left|]. split; [done|by right]. }
    destruct (boundaries (tl0 :: tls)) as [|b1 [|b2 rest]] eqn:Ebs.
    - by apply elem_of_nil in Ha.
    - apply list_elem_of_singleton in Ha, He. lia.
    - destruct (pairs_chain_last rest b1 b2 rows Hsorted) as (y & Hy & Hlast).
      { eapply Forall2_impl; [exact Hprod|]. by intros ? ? (? & ? & _). }
      assert (b1 = a) as ->.
      { pose proof (Hrange b1 ltac:(by left)).
        apply elem_of_cons in Ha as [->|Ha]; [done|].
        apply StronglySorted_inv in Hsorted as [_ Hb1]. rewrite Forall_forall in Hb1.
        specialize (Hb1 a Ha). lia. }
      assert (y = e) as ->; [|done].
      pose proof (Hrange y (last_Some_elem_of _ _ Hlast)).
      pose proof (sorted_last_max _ _ Hsorted Hlast e He). lia. }
  split; [|by split].
  assert (Forall (λ tl, tl ≠ []) timelines) as Hnonempty.
  { eapply Forall_impl; [exact Hchains|]. intros tl Hc. by eapply chain_nonempty. }
  unfold cross_product.
  rewrite (mapM_Ok Timeline.start timelines ((λ _, a) <$> timelines)).
  2:{ apply Forall2_fmap_r, Forall_Forall2_diag.
      eapply Forall_impl; [exact Hchains|]. intros tl Hc. by apply chain_span in Hc as [? _]. }
  cbn [mbind result_bind].
  rewrite (mapM_Ok Timeline.end_ timelines ((λ _, e) <$> timelines)).
  2:{ apply Forall2_fmap_r, Forall_Forall2_diag.
      eapply Forall_impl; [exact Hchains|]. intros tl Hc. by apply chain_span in Hc as [_ ?]. }
  cbn [mbind result_bind].
  rewrite !(all_equal_first_const _ _) by (by apply Forall_fmap, Forall_true).
  cbn [assert_ mbind result_bind]. rewrite Hrows. cbn [mbind result_bind app].
  apply (from_segments_valid a e); [done|]. by apply (chain_ns a e).
Qed.

Lemma validated_chains timelines a e :
  Forall (λ tl, _validate tl = Ok ()) timelines →
  Forall (λ tl, Timeline.start tl = Ok a ∧ Timeline.end_ tl = Ok e) timelines →
  Forall (chain a e) timelines.
Proof.
  intros Hvalid Hspan. rewrite Forall_forall in Hvalid, Hspan |- *. intros tl Htl.
  destruct (validate_chain tl (Hvalid tl Htl)) as (a' & e' & Hc).
  destruct (chain_span _ _ _ Hc) as [Ha He]. destruct (Hspan tl Htl) as [Ha' He'].
  assert (a' = a) as -> by congruence. assert (e' = e) as -> by congruence. done.
Qed.

Lemma validated_span_ns timelines a e :
  timelines ≠ [] →
  Forall (λ tl, _validate tl = Ok ()) timelines →
  Forall (λ tl, Timeline.start tl = Ok a ∧ Timeline.end_ tl = Ok e) timelines →
  ns_range a ∧ ns_range e.
Proof.
  intros Hne Hvalid Hspan. pose proof (validated_chains _ _ _ Hvalid Hspan) as Hchains.
  destruct timelines as [|tl tls]; [done|].
  apply Forall_cons in Hvalid as [Hv _]. apply Forall_cons in Hchains as [Hc _].
  apply (chain_ns_span a e tl); [done|by apply validate_ns].
Qed.

(** C1.  For [N >= 1] valid timelines with the same total start and the
    same total end, [cross_product] returns normally; [bs] being the
    ascending list without duplicates of all starts and ends of all input
    rows, the result has exactly one row per pair of consecutive elements
    of [bs], in order (none are merged), from the first to the second,
    whose value is the tuple, in the order of the inputs, of the values
    the timelines hold at the first. *)
Theorem cross_product_sweeps timelines a e :
  timelines ≠ [] →
  Forall (λ tl, _validate tl = Ok ()) timelines →
  Forall (λ tl, Timeline.start tl = Ok a ∧ Timeline.end_ tl = Ok e) timelines →
  ∃ bs out,
    is_boundaries timelines bs
    ∧ cross_product timelines = Ok out
    ∧ length out = length bs - 1
    ∧ Forall2 (product_row timelines) (consecutive_pairs bs) out.
Proof.
  intros Hne Hvalid Hspan.
  pose proof (validated_chains _ _ _ Hvalid Hspan) as Hchains.
  destruct (validated_span_ns _ _ _ Hne Hvalid Hspan) as [Ha He].
  destruct (cross_product_chain timelines a e Hne Hchains Ha He) as (out & Hrun & Hout & Hprod).
  exists (boundaries timelines), out.
  split; [apply boundaries_spec|]. split; [done|]. split; [|done].
  by rewrite <- (Forall2_length _ _ _ Hprod), consecutive_pairs_length.
Qed.

End CrossProduct.

(** ** Further properties of the operations *)

Section ValidatedTimelines.

Context {T : Type}.
Implicit Types (tl df segments : DataFrame T) (s r : Segment.t T).

(** X1.  The validating constructor accepts exactly the non-empty, contiguous
    lists whose instants are in the nanosecond range and whose rows all
    have [start < end], and returns them as given: the sort check never
    rejects a list that passes the other checks. *)
Theorem from_segments_accepts segments out :
  from_segments segments = Ok out
  ↔ out = segments ∧ segments ≠ [] ∧ ns_frame segments ∧ contiguous segments
    ∧ Forall (λ s, (Segment.start s < Segment.end_ s)%Z) segments.
Proof.
  split.
  - intros [-> [(a & b & Hc) Hns]%validate_valid]%from_segments_Ok_inv.
    split; [done|]. split; [by eapply chain_nonempty|]. split; [done|].
    split; [by eapply chain_contiguous|by eapply chain_interval].
  - intros (-> & Hne & Hns & Hc & Hi).
    destruct (valid_intro segments Hne Hc Hi) as (a & b & Hch).
    by apply (from_segments_valid a b).
Qed.

Lemma chain_sorted_ends a b df : chain a b df → StronglySorted Z.lt (Segment.end_ <$> df).
Proof.
  induction 1 as [r ?|r b df ? Hc IH]; simpl; [by repeat constructor|].
  constructor; [done|]. apply Forall_fmap, Forall_forall. intros s Hs. simpl.
  apply (chain_inside _ _ _ _ Hc) in Hs. lia.
Qed.

(** Rows of a chain at increasing positions do not overlap. *)
Lemma chain_disjoint a b df i j r r' :
  chain a b df → i < j → df !! i = Some r → df !! j = Some r' →
  (Segment.end_ r ≤ Segment.start r')%Z.
Proof.
  intros Hc. revert i j. induction Hc as [s ?|s b df ? Hc IH]; intros i j Hij Hi Hj.
  - destruct i, j; simplify_eq/=; lia.
  - destruct j as [|j]; [lia|]. simpl in Hj. destruct i as [|i].
    + simplify_eq/=. apply list_elem_of_lookup_2 in Hj.
      apply (chain_inside _ _ _ _ Hc) in Hj. lia.
    + simpl in Hi. apply (IH i j); [lia|done..].
Qed.

(** X2.  A frame that passed the validator has strictly increasing starts and
    ends, although only non-decreasing starts are checked, and rows at
    different positions never overlap. *)
Theorem validated_strictly_increasing tl :
  _validate tl = Ok () →
  StronglySorted Z.lt (Segment.start <$> tl)
  ∧ StronglySorted Z.lt (Segment.end_ <$> tl)
  ∧ ∀ i j r r', i < j → tl !! i = Some r → tl !! j = Some r' →
      (Segment.end_ r ≤ Segment.start r')%Z.
Proof.
  intros (a & b & Hc)%validate_chain.
  split; [by eapply chain_sorted|]. split; [by eapply chain_sorted_ends|].
  intros i j r r'. by apply (chain_disjoint a b).
Qed.

Lemma chain_covers a b df t :
  chain a b df → (a ≤ t)%Z → (t < b)%Z →
  ∃ r, r ∈ df ∧ (Segment.start r ≤ t)%Z ∧ (t < Segment.end_ r)%Z.
Proof.
  induction 1 as [s ?|s b df ? Hc IH]; intros Ha Hb.
  - exists s. split; [by left|lia].
  - destruct (decide (t < Segment.end_ s)%Z).
    + exists s. split; [by left|lia].
    + destruct IH as (r & Hr & ?); [lia|done|]. exists r. split; [by right|done].
Qed.

(** X3.  On a validated Timeline the accessors return the first start [a] and
    the last end [b], with [a < b]; every row lies inside [[a, b)];
    exactly one row contains an instant of [[a, b)], and none contains an
    instant outside. *)
Theorem validated_span tl :
  _validate tl = Ok () →
  ∃ a b,
    Timeline.start tl = Ok a ∧ Timeline.end_ tl = Ok b ∧ (a < b)%Z
    ∧ (∀ r, r ∈ tl → (a ≤ Segment.start r ∧ Segment.end_ r ≤ b)%Z)
    ∧ ∀ t,
        ((a ≤ t < b)%Z →
           ∃ r, filter (λ s, (Segment.start s ≤ t ∧ t < Segment.end_ s)%Z) tl = [r]
                ∧ value_at tl t = Some (Segment.value r))
        ∧ (¬ (a ≤ t < b)%Z →
           filter (λ s, (Segment.start s ≤ t ∧ t < Segment.end_ s)%Z) tl = []
           ∧ value_at tl t = None).
Proof.
  intros (a & b & Hc)%validate_chain. exists a, b.
  destruct (chain_span _ _ _ Hc) as [Ha Hb].
  split; [done|]. split; [done|]. split; [by eapply chain_lt|]. split.
  - intros r Hr. by apply (chain_bounds _ _ _ _ Hc).
  - intros t. split.
    + intros [H1 H2]. destruct (chain_covers _ _ _ t Hc H1 H2) as (r & Hr & H3 & H4).
      exists r. unfold value_at. by rewrite (filter_contains a b tl r t).
    + intros Hout.
      assert (filter (λ s, (Segment.start s ≤ t ∧ t < Segment.end_ s)%Z) tl = []) as E.
      { apply filter_none, Forall_forall. intros r Hr.
        apply (chain_inside _ _ _ _ Hc) in Hr. lia. }
      unfold value_at. by rewrite E.
Qed.

End ValidatedTimelines.

Section SliceAlgebra.

Context {T : Type}.
Implicit Types (tl df sel out : DataFrame T) (s r : Segment.t T) (lo hi : Z).

Lemma clipped_id lo hi sel :
  (∀ r, head sel = Some r → (lo ≤ Segment.start r)%Z) →
  (∀ r, last sel = Some r → (Segment.end_ r ≤ hi)%Z) →
  clipped lo hi sel = sel.
Proof.
  intros Hhead Hlast. apply list_eq. intros i. rewrite clipped_lookup.
  destruct (sel !! i) as [r|] eqn:Hr; [|done]. simpl. f_equal.
  unfold clip. rewrite !decide_False; [by destruct r| |].
  - intros [Hi ?]. rewrite last_lookup in Hlast.
    replace (pred (length sel)) with i in Hlast by lia. specialize (Hlast r Hr). lia.
  - intros [-> ?]. rewrite head_lookup in Hhead. specialize (Hhead r Hr). lia.
Qed.

(** X4.  A slice whose bounds cover the whole span returns the Timeline
    unchanged. *)
Theorem slice_covering_span tl lo hi a b :
  _validate tl = Ok () →
  Timeline.start tl = Ok a → Timeline.end_ tl = Ok b →
  (lo ≤ a)%Z → (b ≤ hi)%Z →
  slice tl lo hi = Ok tl.
Proof.
  intros (a' & b' & Hc)%validate_chain Ha Hb Hlo Hhi.
  destruct (chain_span _ _ _ Hc) as [Ha' Hb'].
  assert (a' = a) as -> by congruence. assert (b' = b) as -> by congruence.
  rewrite slice_clipped. f_equal. rewrite filter_all.
  - apply clipped_id.
    + intros r Hr. apply head_Some_elem_of in Hr.
      apply (chain_inside _ _ _ _ Hc) in Hr. lia.
    + intros r Hr. apply last_Some_elem_of in Hr.
      apply (chain_inside _ _ _ _ Hc) in Hr. lia.
  - apply Forall_forall. intros r Hr.
    apply (chain_inside _ _ _ _ Hc) in Hr. unfold overlaps. lia.
Qed.

Lemma clipped_overlaps lo hi sel :
  (lo < hi)%Z → Forall (overlaps lo hi) sel → Forall (overlaps lo hi) (clipped lo hi sel).
Proof.
  intros Hlt Hsel. apply Forall_lookup. intros i r'. rewrite clipped_lookup.
  destruct (sel !! i) as [r|] eqn:Hr; [|done]. intros [= <-].
  rewrite Forall_lookup in Hsel. specialize (Hsel i r Hr).
  unfold overlaps, clip in *. simpl. repeat case_decide; lia.
Qed.

(** X5.  With [lo < hi], slicing the result of a slice again with the same
    bounds changes nothing, on every frame. *)
Theorem slice_idempotent tl lo hi out :
  (lo < hi)%Z → slice tl lo hi = Ok out → slice out lo hi = Ok out.
Proof.
  intros Hlt. rewrite slice_clipped. intros [= <-].
  set (sel := filter (overlaps lo hi) tl).
  assert (Forall (overlaps lo hi) sel) as Hsel.
  { apply Forall_forall. intros r Hr. by apply list_elem_of_filter in Hr as [? _]. }
  rewrite slice_clipped. f_equal.
  rewrite filter_all by by apply clipped_overlaps.
  apply clipped_id.
  - intros r. rewrite head_lookup, clipped_lookup.
    destruct (sel !! 0) as [r0|]; [|done]. intros [= <-].
    unfold clip. simpl. case_decide; lia.
  - intros r. rewrite last_lookup, clipped_lookup, clipped_length.
    destruct (sel !! pred (length sel)) as [r0|] eqn:Hr0; [|done]. intros [= <-].
    apply lookup_lt_Some in Hr0. unfold clip. simpl. case_decide; lia.
Qed.

(** The selection of a slice whose bounds meet the span is a chain whose
    ends, once clipped, are the ends of the intersection. *)
Lemma filter_chain_span lo hi a b df :
  chain a b df → (lo < hi)%Z → (lo < b)%Z → (a < hi)%Z →
  ∃ a' b', chain a' b' (filter (overlaps lo hi) df)
           ∧ Z.max a' lo = Z.max a lo ∧ Z.min b' hi = Z.min b hi.
Proof.
  induction 1 as [s Hs|s b df Hs Hc IH]; intros Hlt Hlo Hhi.
  - rewrite filter_cons_True by (unfold overlaps; lia).
    eexists _, _. split; [by apply chain_one|done].
  - pose proof (chain_lt _ _ _ Hc) as Hsb.
    destruct (decide (overlaps lo hi s)) as [Ho|Ho].
    + rewrite filter_cons_True by done. unfold overlaps in Ho.
      destruct (decide (Segment.end_ s < hi)%Z) as [Hend|Hend].
      * destruct (IH Hlt Hlo Hend) as (a' & b' & Hc' & Ha' & Hb').
        assert (a' = Segment.end_ s) as -> by lia.
        exists (Segment.start s), b'. split; [by apply chain_cons|done].
      * rewrite filter_none.
        2:{ apply Forall_forall. intros r Hr.
            apply (chain_inside _ _ _ _ Hc) in Hr. unfold overlaps. lia. }
        exists (Segment.start s), (Segment.end_ s). split; [by apply chain_one|lia].
    + rewrite filter_cons_False by done. unfold overlaps in Ho.
      destruct IH as (a' & b' & Hc' & Ha' & Hb'); [done|done|lia|].
      exists a', b'. split; [done|lia].
Qed.

Lemma clipped_chain lo hi a b sel :
  chain a b sel → Forall (overlaps lo hi) sel → (lo < hi)%Z →
  chain (Z.max a lo) (Z.min b hi) (clipped lo hi sel).
Proof.
  intros Hc Ho Hlt.
  assert (valid (clipped lo hi sel)) as (x & y & Hxy).
  { apply valid_intro.
    - intros E%clipped_nil_inv. by apply chain_nonempty in Hc.
    - intros i r r'. rewrite !clipped_lookup. intros H1 H2.
      destruct (sel !! i) as [x|] eqn:Hx; [|done].
      destruct (sel !! S i) as [x'|] eqn:Hx'; [|done]. simplify_eq/=.
      pose proof (lookup_lt_Some _ _ _ Hx').
      rewrite decide_False by lia. by apply (chain_contiguous _ _ _ Hc i).
    - apply Forall_lookup. intros i r. rewrite clipped_lookup. intros H1.
      destruct (sel !! i) as [x|] eqn:Hx; [|done]. simplify_eq/=.
      pose proof (list_elem_of_lookup_2 _ _ _ Hx) as Hin.
      pose proof (chain_inside _ _ _ _ Hc Hin).
      rewrite Forall_forall in Ho. specialize (Ho _ Hin). unfold overlaps in Ho.
      repeat case_decide; lia. }
  destruct (chain_span _ _ _ Hc) as [Ha Hb].
  destruct (chain_span _ _ _ Hxy) as [Hx Hy].
  apply start_Ok_inv in Ha as (r0 & rest & -> & Hr0).
  assert (x = Z.max a lo) as ->.
  { unfold clipped in Hx. simpl in Hx. rewrite start_cons in Hx. simpl in Hx.
    injection Hx as <-. case_decide; lia. }
  assert (y = Z.min b hi) as ->; [|done].
  apply end_Ok_inv in Hb as (rl & Hrl & Hrl').
  rewrite end_last, last_lookup, clipped_lookup, clipped_length, <- last_lookup, Hrl in Hy.
  simpl in Hy. injection Hy as <-. case_decide; lia.
Qed.

(** X6.  A slice with [lo < hi] that meets the span of a validated Timeline is
    again a valid Timeline, over the intersection of the span with
    [[lo, hi)], and it holds at every instant of [[lo, hi)] the value the
    original holds there, and no value elsewhere. *)
Theorem slice_restricts tl lo hi a b :
  _validate tl = Ok () →
  Timeline.start tl = Ok a → Timeline.end_ tl = Ok b →
  (lo < hi)%Z → (lo < b)%Z → (a < hi)%Z →
  ∃ out,
    slice tl lo hi = Ok out
    ∧ _validate out = Ok ()
    ∧ Timeline.start out = Ok (Z.max a lo)
    ∧ Timeline.end_ out = Ok (Z.min b hi)
    ∧ ∀ t, value_at out t = if decide (lo ≤ t < hi)%Z then value_at tl t else None.
Proof.
  intros [(a' & b' & Hc) Hns]%validate_valid Ha Hb Hlt Hlo Hhi.
  destruct (chain_span _ _ _ Hc) as [Ha' Hb'].
  assert (a' = a) as -> by congruence. assert (b' = b) as -> by congruence.
  destruct (filter_chain_span lo hi a b tl Hc Hlt Hlo Hhi) as (a' & b' & Hsel & Hmax & Hmin).
  assert (Forall (overlaps lo hi) (filter (overlaps lo hi) tl)) as Ho.
  { apply Forall_forall. intros r Hr. by apply list_elem_of_filter in Hr as [? _]. }
  pose proof (clipped_chain lo hi a' b' _ Hsel Ho Hlt) as Hout.
  rewrite Hmax, Hmin in Hout.
  exists (clipped lo hi (filter (overlaps lo hi) tl)).
  split; [apply slice_clipped|]. split.
  { apply (validate_inside a b tl (Z.max a lo) (Z.min b hi)); (done || lia). }
  destruct (chain_span _ _ _ Hout) as [Hs He]. split; [done|]. split; [done|].
  intros t. unfold value_at at 1.
  destruct (decide (Z.max a lo ≤ t < Z.min b hi)%Z) as [Hin|Hnin].
  - rewrite decide_True by lia.
    destruct (chain_covers a b tl t Hc) as (r & Hr & H1 & H2); [lia..|].
    assert (r ∈ filter (overlaps lo hi) tl) as Hrsel.
    { apply list_elem_of_filter. split; [unfold overlaps; lia|done]. }
    apply list_elem_of_lookup in Hrsel as [i Hi].
    rewrite (filter_contains _ _ _ (clip lo hi (length (filter (overlaps lo hi) tl)) i r) t Hout).
    + unfold value_at. by rewrite (filter_contains a b tl r t).
    + apply (list_elem_of_lookup_2 _ i). by rewrite clipped_lookup, Hi.
    + unfold clip. simpl. case_decide; lia.
    + unfold clip. simpl. case_decide; lia.
  - rewrite filter_none.
    2:{ apply Forall_forall. intros r Hr.
        apply (chain_inside _ _ _ _ Hout) in Hr. lia. }
    simpl. case_decide; [|done].
    unfold value_at. rewrite filter_none; [done|].
    apply Forall_forall. intros r Hr. apply (chain_inside _ _ _ _ Hc) in Hr. lia.
Qed.

End SliceAlgebra.

Section MergeAlgebra.

Context {T : Type} `{EqDecision T} `{PyValue T}.
Implicit Types (tl df rows : DataFrame T) (s r cur row : Segment.t T).

Lemma value_at_cons s df t :
  value_at (s :: df) t
  = if decide (Segment.start s ≤ t ∧ t < Segment.end_ s)%Z
    then Some (Segment.value s) else value_at df t.
Proof.
  unfold value_at. case_decide.
  - by rewrite filter_cons_True.
  - by rewrite filter_cons_False.
Qed.

(** The loop keeps the value at every instant. *)
Lemma absorb_value_at a b cur rows t :
  chain a b (cur :: rows) → value_at (absorb cur rows) t = value_at (cur :: rows) t.
Proof.
  revert a cur. induction rows as [|row rest IH]; intros a cur Hc; [done|]. simpl.
  inversion Hc as [|? ? ? Hcur Hc']; subst.
  assert (Segment.start row = Segment.end_ cur
          ∧ (Segment.start row < Segment.end_ row)%Z) as [Hjoin Hrow].
  { inversion Hc'; subst; by split. }
  case_decide as Hv.
  - rewrite (IH (Segment.start cur)).
    2:{ inversion Hc' as [? ?|? ? ? ? Hc'']; subst.
        - apply chain_one_mk. lia.
        - apply chain_cons_mk; [lia|done]. }
    rewrite !value_at_cons. simpl. rewrite Hv.
    repeat case_decide; try done; lia.
  - rewrite !(value_at_cons cur). case_decide; [done|].
    rewrite (IH (Segment.end_ cur)) by by rewrite segment_eta.
    by rewrite segment_eta.
Qed.

Lemma absorb_length cur rows : length (absorb cur rows) ≤ S (length rows).
Proof.
  revert cur. induction rows as [|row rest IH]; intros cur; simpl; [done|].
  case_decide; simpl.
  - etrans; [apply IH|]. lia.
  - specialize (IH (Segment.mk (Segment.start row) (Segment.end_ row) (Segment.value row))). lia.
Qed.

(** X9.  On a validated Timeline with plain values, [merge_adjacent] keeps
    the total start, the total end and the value at every instant; the
    result never has more rows than the input, nor two neighbouring rows
    with equal values. *)
Theorem merge_adjacent_preserves tl :
  _validate tl = Ok () → plain_values tl →
  ∃ out,
    merge_adjacent tl = Ok out
    ∧ Timeline.start out = Timeline.start tl
    ∧ Timeline.end_ out = Timeline.end_ tl
    ∧ (∀ t, value_at out t = value_at tl t)
    ∧ length out ≤ length tl
    ∧ no_adjacent_equal out.
Proof.
  intros [(a & b & Hc) Hns]%validate_valid Hp.
  destruct tl as [|s rest]; [by apply chain_nonempty in Hc|].
  pose proof (chain_absorb _ _ _ _ Hc) as Hout.
  exists (absorb s rest). split.
  { rewrite merge_adjacent_absorb by done. unfold from_segments.
    by rewrite (validate_inside a b (s :: rest) a b (absorb s rest)). }
  destruct (chain_span _ _ _ Hc) as [-> ->].
  destruct (chain_span _ _ _ Hout) as [-> ->].
  split; [done|]. split; [done|]. split; [intros t; by eapply absorb_value_at|].
  split; [apply absorb_length|apply absorb_no_adjacent_equal].
Qed.

(** X10.  On a validated Timeline with plain values, [merge_adjacent] returns
    the Timeline unchanged exactly when no two neighbouring rows carry
    equal values. *)
Theorem merge_adjacent_fixed_point tl :
  _validate tl = Ok () → plain_values tl →
  (merge_adjacent tl = Ok tl ↔ no_adjacent_equal tl).
Proof.
  intros Hv Hp. pose proof Hv as (a & b & Hc)%validate_chain.
  destruct tl as [|s rest]; [by apply chain_nonempty in Hc|].
  rewrite merge_adjacent_absorb by done. split.
  - intros [E _]%from_segments_Ok_inv. rewrite E. apply absorb_no_adjacent_equal.
  - intros Hn. rewrite absorb_fixed by done. unfold from_segments. by rewrite Hv.
Qed.

(** X11.  On an object that [slice] returned and the validator rejects,
    [merge_adjacent] fails with the validator's error for that object. *)
Theorem merge_adjacent_rejects_invalid tl e :
  constructed tl → _validate tl = Raise e → merge_adjacent tl = Raise e.
Proof.
  intros Hcon He. pose proof (constructed_ns _ Hcon) as Hns.
  apply constructed_shape in Hcon as [->|[[s ->]|Hv]].
  - by injection He as <-.
  - rewrite merge_adjacent_loop. simpl. unfold from_segments.
    rewrite (validate_map_values iterrows_value [s]). by rewrite He.
  - assert (_validate tl = Ok ()) by (by apply validate_valid). congruence.
Qed.



End MergeAlgebra.

Section MapAlgebra.

Context {T : Type}.
Implicit Types (tl df : DataFrame T) (s r : Segment.t T).

Lemma map_validates_boundaries {U} (func : T → U) tl :
  Timeline.map tl func
  = (_validate tl;;
     Ok ((λ r, Segment.mk (Segment.start r) (Segment.end_ r) (func (Segment.value r))) <$> tl)).
Proof. unfold Timeline.map, from_dataframe. by rewrite validate_map_values. Qed.

(** X12.  Whether [map] succeeds does not depend on [func]: it returns the
    mapped frame exactly when the frame itself passes the validator, and
    fails exactly with the validator's error for the frame otherwise. *)
Theorem map_succeeds_iff {U} (func : T → U) tl :
  (∀ out, Timeline.map tl func = Ok out
          ↔ _validate tl = Ok ()
            ∧ out = (λ r, Segment.mk (Segment.start r) (Segment.end_ r)
                                     (func (Segment.value r))) <$> tl)
  ∧ (∀ e, Timeline.map tl func = Raise e ↔ _validate tl = Raise e).
Proof.
  rewrite map_validates_boundaries. destruct (_validate tl) as [[]|e']; simpl.
  - split; [|by split]. intros out. split; [by intros [= <-]|by intros [_ ->]].
  - split; [|intros e; split; congruence]. intros out. split; [done|by intros [? _]].
Qed.

Lemma value_at_map_values {U} (func : T → U) df t :
  value_at ((λ r, Segment.mk (Segment.start r) (Segment.end_ r) (func (Segment.value r))) <$> df) t
  = func <$> value_at df t.
Proof.
  unfold value_at. induction df as [|r df IH]; [done|]. rewrite fmap_cons.
  destruct (decide (Segment.start r ≤ t ∧ t < Segment.end_ r)%Z).
  - by rewrite !filter_cons_True.
  - by rewrite !filter_cons_False.
Qed.

(** X13.  A successful [map] keeps the total span and holds at every instant
    [func] of the value the original holds there. *)
Theorem map_pointwise {U} (func : T → U) tl out :
  Timeline.map tl func = Ok out →
  Timeline.start out = Timeline.start tl
  ∧ Timeline.end_ out = Timeline.end_ tl
  ∧ ∀ t, value_at out t = func <$> value_at tl t.
Proof.
  rewrite map_validates_boundaries.
  destruct (_validate tl) as [[]|]; [|done]. simpl. intros [= <-].
  split; [by destruct tl|]. split; [|intros t; apply value_at_map_values].
  rewrite !end_last, fmap_last. by destruct (last tl).
Qed.

End MapAlgebra.

(** X14.  Mapping with the identity returns a validated Timeline unchanged, and
    two maps in a row are the map of the composition. *)
Theorem map_functor {T U V} (f : T → U) (g : U → V) (tl : Timeline.t T) :
  _validate tl = Ok () →
  Timeline.map tl (λ x, x) = Ok tl
  ∧ (Timeline.map tl f ≫= λ m, Timeline.map m g) = Timeline.map tl (g ∘ f).
Proof.
  intros Hv. rewrite !map_validates_boundaries, Hv. cbn [mbind result_bind]. split.
  - f_equal. rewrite <- (list_fmap_id tl) at 2. apply list_fmap_ext.
    intros i r _. apply segment_eta.
  - rewrite map_validates_boundaries, validate_map_values, Hv. cbn [mbind result_bind].
    f_equal. by rewrite <- list_fmap_compose.
Qed.


Section ProductAlgebra.

Context {T : Type}.
Implicit Types (timelines : list (Timeline.t T)) (tl df : Timeline.t T) (s r : Segment.t T).

Lemma all_equal_first_spec (l : list Z) :
  Py.all_equal_first l = true ↔ ∀ x y, x ∈ l → y ∈ l → x = y.
Proof.
  destruct l as [|x0 l]; [split; [by intros _ ?? ?%elem_of_nil|done]|].
  unfold Py.all_equal_first. rewrite forallb_forall.
  setoid_rewrite bool_decide_eq_true. setoid_rewrite <- list_elem_of_In. split.
  - intros H x y Hx Hy. by rewrite (H x Hx), (H y Hy).
  - intros H x Hx. apply H; [done|by left].
Qed.

Lemma mapM_raise {A B} (f : A → result B) (l : list A) e :
  (∃ x, x ∈ l ∧ f x = Raise e) → (∀ x, x ∈ l → f x = Raise e ∨ ∃ y, f x = Ok y) →
  mapM f l = Raise e.
Proof.
  induction l as [|x l IH]; intros (x' & Hx' & He) Hall.
  { by apply elem_of_nil in Hx'. }
  cbn [mapM]. destruct (Hall x ltac:(by left)) as [->|[y Hy]]; [done|].
  rewrite Hy. cbn [mbind result_bind].
  change (match mapM f l with Ok a => Ok (y :: a) | Raise e => Raise e end = Raise e).
  rewrite IH; [done| |].
  - apply elem_of_cons in Hx' as [->|?]; [congruence|by exists x'].
  - intros ? ?. apply Hall. by right.
Qed.

Lemma starts_nonempty timelines :
  Forall (λ tl, tl ≠ []) timelines →
  ∃ starts, Forall2 (λ tl a, Timeline.start tl = Ok a) timelines starts.
Proof.
  induction 1 as [|tl tls Htl _ [starts IH]]; [by exists []|].
  destruct tl as [|s rest]; [done|]. exists (Segment.start s :: starts).
  constructor; [reflexivity|exact IH].
Qed.

Lemma ends_nonempty timelines :
  Forall (λ tl, tl ≠ []) timelines →
  ∃ ends, Forall2 (λ tl b, Timeline.end_ tl = Ok b) timelines ends.
Proof.
  induction 1 as [|tl tls Htl _ [ends IH]]; [by exists []|].
  destruct (last tl) as [s|] eqn:Hlast; [|by apply last_None in Hlast].
  exists (Segment.end_ s :: ends). constructor; [|done]. by rewrite end_last, Hlast.
Qed.

Lemma accessors_nonempty timelines :
  Forall (λ tl, tl ≠ []) timelines →
  ∃ starts ends,
    mapM Timeline.start timelines = Ok starts
    ∧ mapM Timeline.end_ timelines = Ok ends
    ∧ Forall2 (λ tl a, Timeline.start tl = Ok a) timelines starts
    ∧ Forall2 (λ tl b, Timeline.end_ tl = Ok b) timelines ends.
Proof.
  intros Hne.
  destruct (starts_nonempty timelines Hne) as [starts Hs].
  destruct (ends_nonempty timelines Hne) as [ends He].
  exists starts, ends. split; [by apply mapM_Ok|]. split; [by apply mapM_Ok|done].
Qed.

(** X17.  A Timeline with an empty frame among the inputs makes [cross_product]
    fail with IndexError, before any comparison of the bounds. *)
Theorem cross_product_empty_frame timelines :
  [] ∈ timelines → cross_product timelines = Raise IndexError.
Proof.
  intros Hin. unfold cross_product.
  rewrite (mapM_raise Timeline.start timelines IndexError); [done| |].
  - by exists [].
  - intros [|s rest] _; [by left|right; by eexists].
Qed.

(** X18.  Two inputs with different total starts make [cross_product] fail
    with the start message, whatever the total ends. *)
Theorem cross_product_start_mismatch timelines tl1 tl2 a1 a2 :
  Forall (λ tl, tl ≠ []) timelines →
  tl1 ∈ timelines → tl2 ∈ timelines →
  Timeline.start tl1 = Ok a1 → Timeline.start tl2 = Ok a2 → a1 ≠ a2 →
  cross_product timelines = Raise (AssertionError msg_start).
Proof.
  intros Hne H1 H2 Ha1 Ha2 Hdiff.
  destruct (accessors_nonempty timelines Hne) as (starts & ends & Hs & He & Hs2 & _).
  unfold cross_product. rewrite Hs, He. cbn [mbind result_bind].
  assert (Py.all_equal_first starts = false) as ->; [|done].
  apply not_true_is_false. rewrite all_equal_first_spec. intros Heq. apply Hdiff.
  apply list_elem_of_lookup in H1 as [i1 Hi1]. apply list_elem_of_lookup in H2 as [i2 Hi2].
  destruct (Forall2_lookup_l _ _ _ _ _ Hs2 Hi1) as (x1 & Hx1 & E1).
  destruct (Forall2_lookup_l _ _ _ _ _ Hs2 Hi2) as (x2 & Hx2 & E2).
  assert (x1 = a1) as -> by congruence. assert (x2 = a2) as -> by congruence.
  apply Heq; by eapply list_elem_of_lookup_2.
Qed.

(** X19.  Inputs with one total start and two different total ends make
    [cross_product] fail with the end message. *)
Theorem cross_product_end_mismatch timelines a tl1 tl2 b1 b2 :
  Forall (λ tl, Timeline.start tl = Ok a) timelines →
  tl1 ∈ timelines → tl2 ∈ timelines →
  Timeline.end_ tl1 = Ok b1 → Timeline.end_ tl2 = Ok b2 → b1 ≠ b2 →
  cross_product timelines = Raise (AssertionError msg_end).
Proof.
  intros Ha H1 H2 Hb1 Hb2 Hdiff.
  assert (Forall (λ tl, tl ≠ []) timelines) as Hne.
  { eapply Forall_impl; [exact Ha|]. by intros [|] ?. }
  destruct (accessors_nonempty timelines Hne) as (starts & ends & Hs & He & Hs2 & He2).
  unfold cross_product. rewrite Hs, He. cbn [mbind result_bind].
  assert (Py.all_equal_first starts = true) as ->.
  { apply all_equal_first_spec. intros x y Hx Hy.
    apply list_elem_of_lookup in Hx as [i Hi]. apply list_elem_of_lookup in Hy as [j Hj].
    destruct (Forall2_lookup_r _ _ _ _ _ Hs2 Hi) as (tx & Htx & Ex).
    destruct (Forall2_lookup_r _ _ _ _ _ Hs2 Hj) as (ty & Hty & Ey).
    rewrite Forall_lookup in Ha.
    pose proof (Ha _ _ Htx). pose proof (Ha _ _ Hty). congruence. }
  cbn [assert_ mbind result_bind].
  assert (Py.all_equal_first ends = false) as ->; [|done].
  apply not_true_is_false. rewrite all_equal_first_spec. intros Heq. apply Hdiff.
  apply list_elem_of_lookup in H1 as [i1 Hi1]. apply list_elem_of_lookup in H2 as [i2 Hi2].
  destruct (Forall2_lookup_l _ _ _ _ _ He2 Hi1) as (x1 & Hx1 & E1).
  destruct (Forall2_lookup_l _ _ _ _ _ He2 Hi2) as (x2 & Hx2 & E2).
  assert (x1 = b1) as -> by congruence. assert (x2 = b2) as -> by congruence.
  apply Heq; by eapply list_elem_of_lookup_2.
Qed.

(** A pair of consecutive boundaries has no boundary strictly between its
    two elements. *)
Lemma consecutive_pairs_spec (bs : list Z) p :
  StronglySorted Z.lt bs → p ∈ consecutive_pairs bs →
  p.1 ∈ bs ∧ p.2 ∈ bs ∧ (p.1 < p.2)%Z ∧ ∀ x, x ∈ bs → (p.1 < x)%Z → (p.2 ≤ x)%Z.
Proof.
  induction bs as [|b1 [|b2 rest] IH]; intros Hs Hp; [by apply elem_of_nil in Hp..|].
  change (consecutive_pairs (b1 :: b2 :: rest))
    with ((b1, b2) :: consecutive_pairs (b2 :: rest)) in Hp.
  apply StronglySorted_inv in Hs as [Hs Hb1]. rewrite Forall_forall in Hb1.
  apply elem_of_cons in Hp as [->|Hp]; simpl.
  - split; [by left|]. split; [right; by left|].
    split; [apply Hb1; by left|].
    intros x [->|[->|Hx]%elem_of_cons]%elem_of_cons Hlt; [lia..|].
    apply StronglySorted_inv in Hs as [_ Hb2]. rewrite Forall_forall in Hb2.
    specialize (Hb2 x Hx). lia.
  - destruct (IH Hs Hp) as (H1 & H2 & H3 & H4).
    split; [by right|]. split; [by right|]. split; [done|].
    intros x [->|Hx]%elem_of_cons Hlt; [|by apply H4].
    specialize (Hb1 _ H1). lia.
Qed.

(** X15.  The product of [N >= 1] valid timelines over one span is a valid
    Timeline over that span which holds, at every instant, the tuple of
    the values the inputs hold at that instant, in the order of the
    inputs. *)
Theorem cross_product_pointwise timelines a e :
  timelines ≠ [] →
  Forall (λ tl, _validate tl = Ok ()) timelines →
  Forall (λ tl, Timeline.start tl = Ok a ∧ Timeline.end_ tl = Ok e) timelines →
  ∃ out,
    cross_product timelines = Ok out
    ∧ _validate out = Ok ()
    ∧ Timeline.start out = Ok a
    ∧ Timeline.end_ out = Ok e
    ∧ ∀ t, value_at out t = mapM (λ tl, value_at tl t) timelines.
Proof.
  intros Hne Hvalid Hspan.
  pose proof (validated_chains _ _ _ Hvalid Hspan) as Hchains.
  destruct (validated_span_ns _ _ _ Hne Hvalid Hspan) as [Hna Hne'].
  destruct (cross_product_chain timelines a e Hne Hchains Hna Hne')
    as (out & Hrun & Hout & Hprod).
  pose proof (boundaries_spec timelines) as [Hsorted Hmem].
  exists out. split; [done|].
  split; [apply (validate_intro a e); [done|by apply (chain_ns a e)]|].
  destruct (chain_span _ _ _ Hout) as [Hs He]. split; [done|]. split; [done|].
  intros t. destruct (decide (a ≤ t < e)%Z) as [Hin|Hnin].
  - destruct (chain_covers a e out t Hout) as (row & Hrow & H1 & H2); [lia..|].
    unfold value_at at 1. rewrite (filter_contains a e out row t Hout Hrow H1 H2). simpl.
    symmetry. apply mapM_Some_2.
    apply list_elem_of_lookup in Hrow as [i Hi].
    destruct (Forall2_lookup_r _ _ _ _ _ Hprod Hi) as (p & Hp & Hp1 & Hp2 & Hvals).
    apply list_elem_of_lookup_2 in Hp.
    destruct (consecutive_pairs_spec _ p Hsorted Hp) as (Hb1 & Hb2 & Hlt & Hgap).
    apply Forall2_same_length_lookup. split; [by eapply Forall2_length|].
    intros j tl v Htl Hv.
    pose proof (Forall2_lookup_lr _ _ _ _ _ _ Hvals Htl Hv) as Hat. simpl in Hat.
    rewrite Forall_lookup in Hchains. pose proof (Hchains j tl Htl) as Hc.
    assert (a ≤ p.1 ∧ p.1 < e)%Z as [Hp1a Hp1e].
    { apply Hmem in Hb1 as (tl' & s' & Htl' & Hs' & Hb1).
      apply Hmem in Hb2 as (tl'' & s'' & Htl'' & Hs'' & Hb2).
      apply list_elem_of_lookup in Htl' as [j' Hj']. apply list_elem_of_lookup in Htl'' as [j'' Hj''].
      pose proof (chain_inside _ _ _ _ (Hchains _ _ Hj') Hs').
      pose proof (chain_inside _ _ _ _ (Hchains _ _ Hj'') Hs''). lia. }
    destruct (chain_covers a e tl p.1 Hc Hp1a Hp1e) as (r & Hr & Hr1 & Hr2).
    unfold value_at in Hat. rewrite (filter_contains a e tl r p.1 Hc Hr Hr1 Hr2) in Hat.
    injection Hat as <-.
    assert (p.2 ≤ Segment.end_ r)%Z as Hend.
    { apply Hgap; [|lia]. apply Hmem. exists tl, r.
      split; [by eapply list_elem_of_lookup_2|]. split; [done|by right]. }
    unfold value_at. rewrite (filter_contains a e tl r t Hc Hr); [done|lia|lia].
  - unfold value_at at 1. rewrite filter_none.
    2:{ apply Forall_forall. intros r Hr. apply (chain_inside _ _ _ _ Hout) in Hr. lia. }
    destruct timelines as [|tl0 tls]; [done|]. apply Forall_cons in Hchains as [Hc0 _].
    assert (value_at tl0 t = None) as Hnone.
    { unfold value_at. rewrite filter_none; [done|].
      apply Forall_forall. intros r Hr. apply (chain_inside _ _ _ _ Hc0) in Hr. lia. }
    cbn [mapM]. by rewrite Hnone.
Qed.

Lemma strictly_sorted_nodup (l : list Z) : StronglySorted Z.lt l → NoDup l.
Proof.
  induction 1 as [|x l _ IH Hx]; constructor; [|done].
  intros Hin. rewrite Forall_forall in Hx. specialize (Hx x Hin). lia.
Qed.

(** An ascending list without duplicates is determined by its elements. *)
Lemma strictly_sorted_unique (l1 l2 : list Z) :
  StronglySorted Z.lt l1 → StronglySorted Z.lt l2 → (∀ x, x ∈ l1 ↔ x ∈ l2) → l1 = l2.
Proof.
  intros H1 H2 Hmem. apply (StronglySorted_unique_strong Z.lt); [intros; lia|done..|].
  apply NoDup_Permutation; [by apply strictly_sorted_nodup..|done].
Qed.

Lemma chain_next a e df s :
  chain a e df → s ∈ df → Segment.end_ s = e ∨ ∃ r, r ∈ df ∧ Segment.start r = Segment.end_ s.
Proof.
  induction 1 as [s0 ?|s0 e df ? Hc IH]; intros Hin.
  - apply list_elem_of_singleton in Hin as ->. by left.
  - apply elem_of_cons in Hin as [->|Hin].
    + right. destruct (chain_first _ _ _ Hc) as (r & Hr & Hstart).
      exists r. split; [by right|done].
    + destruct (IH Hin) as [?|(r & Hr & ?)]; [by left|].
      right. exists r. split; [by right|done].
Qed.

Lemma chain_pairs a e df :
  chain a e df →
  consecutive_pairs ((Segment.start <$> df) ++ [e])
  = (λ r, (Segment.start r, Segment.end_ r)) <$> df.
Proof.
  induction 1 as [s ?|s e df ? Hc IH]; [done|].
  destruct df as [|r df']; [by apply chain_nonempty in Hc|].
  pose proof (chain_head _ _ _ Hc) as Hh. simpl in Hh. injection Hh as Hh.
  change (consecutive_pairs ((Segment.start <$> s :: r :: df') ++ [e]))
    with ((Segment.start s, Segment.start r)
            :: consecutive_pairs ((Segment.start <$> r :: df') ++ [e])).
  rewrite IH, Hh. done.
Qed.

(** The boundaries of one valid Timeline are its starts followed by its
    total end. *)
Lemma boundaries_single a e tl :
  chain a e tl → boundaries [tl] = (Segment.start <$> tl) ++ [e].
Proof.
  intros Hc. destruct (boundaries_spec [tl]) as [Hsorted Hmem].
  apply strictly_sorted_unique; [done| |].
  - apply StronglySorted_app. split; [|split; [by eapply chain_sorted|by repeat constructor]].
    intros x1 x2 (r & -> & Hr)%list_elem_of_fmap ->%list_elem_of_singleton.
    apply (chain_inside _ _ _ _ Hc) in Hr. lia.
  - intros b. rewrite Hmem, elem_of_app, list_elem_of_fmap, list_elem_of_singleton. split.
    + intros (tl' & s & ->%list_elem_of_singleton & Hs & [-> | ->]).
      * left. by exists s.
      * destruct (chain_next _ _ _ _ Hc Hs) as [?|(r & Hr & Hstart)]; [by right|].
        left. by exists r.
    + intros [(r & -> & Hr) | ->].
      * exists tl, r. split; [by left|]. split; [done|by left].
      * destruct (chain_final _ _ _ Hc) as (s & Hs & Hend).
        exists tl, s. split; [by left|]. split; [done|by right].
Qed.

(** X16.  The product of a single valid Timeline has the same boundaries, each
    value wrapped in a 1-tuple. *)
Theorem cross_product_single tl :
  _validate tl = Ok () →
  cross_product [tl]
  = Ok ((λ r, Segment.mk (Segment.start r) (Segment.end_ r) [Segment.value r]) <$> tl).
Proof.
  intros [(a & e & Hc) Hns]%validate_valid.
  destruct (chain_ns_span _ _ _ Hc Hns) as [Hna Hne].
  destruct (cross_product_chain [tl] a e) as (out & Hrun & Hout & Hprod);
    [done|by constructor|done|done|].
  rewrite Hrun. f_equal.
  rewrite (boundaries_single a e tl Hc), (chain_pairs a e tl Hc) in Hprod.
  apply (Forall2_fmap_l (λ r : Segment.t T, (Segment.start r, Segment.end_ r))) in Hprod.
  apply list_eq_Forall2, Forall2_fmap_r, Forall2_flip.
  apply Forall2_same_length_lookup. split; [by eapply Forall2_length|].
  intros i r row Hr Hrow.
  destruct (Forall2_lookup_lr _ _ _ _ _ _ Hprod Hr Hrow) as (H1 & H2 & Hvals).
  simpl in *. apply Forall2_cons_inv_l in Hvals as (v & vs & Hv & Hnil & Hval).
  apply Forall2_nil_inv_l in Hnil as ->.
  apply list_elem_of_lookup_2 in Hr.
  pose proof (chain_inside _ _ _ _ Hc Hr).
  unfold value_at in Hv.
  rewrite (filter_contains a e tl r (Segment.start r) Hc Hr) in Hv by lia.
  injection Hv as <-. destruct row. simpl in *. by subst.
Qed.

End ProductAlgebra.

Section GapsAlgebra.

Context {T : Type}.
Implicit Types (segments sorted : list (Segment.t T)) (s r prev next : Segment.t T).

Lemma sorted_neighbours {A} (R : relation A) (l : list A) k x y :
  Sorted R l → l !! k = Some x → l !! S k = Some y → R x y.
Proof.
  intros Hs. revert k. induction Hs as [|z l Hl IH Hz]; intros k Hx Hy; [done|].
  destruct k as [|k].
  - simplify_eq/=. destruct l; simplify_eq/=. by apply HdRel_inv in Hz.
  - by apply (IH k).
Qed.

Lemma gaps_filled_unfold gap_value prev next rest :
  gaps_filled gap_value (prev :: next :: rest)
  = if decide (Segment.end_ prev < Segment.start next)%Z
    then prev :: Segment.mk (Segment.end_ prev) (Segment.start next) gap_value
              :: gaps_filled gap_value (next :: rest)
    else prev :: gaps_filled gap_value (next :: rest).
Proof. reflexivity. Qed.

(** Filling segments that follow one another without overlap gives a
    chain. *)
Lemma gaps_filled_chain gap_value rest :
  ∀ s,
    Forall (λ s, (Segment.start s < Segment.end_ s)%Z) (s :: rest) →
    (∀ k prev next, (s :: rest) !! k = Some prev → (s :: rest) !! S k = Some next →
                    (Segment.end_ prev ≤ Segment.start next)%Z) →
    ∃ b, chain (Segment.start s) b (gaps_filled gap_value (s :: rest)).
Proof.
  induction rest as [|next rest IH]; intros s Hwf Hnb.
  - apply Forall_cons in Hwf as [? _]. eexists. by apply chain_one.
  - apply Forall_cons in Hwf as [Hs Hwf].
    destruct (IH next Hwf) as [b Hb].
    { intros k p n Hp Hn. by apply (Hnb (S k)). }
    pose proof (Hnb 0 s next eq_refl eq_refl) as Hle.
    rewrite gaps_filled_unfold. exists b. case_decide.
    + apply chain_cons; [done|]. by apply chain_cons_mk.
    + apply chain_cons; [done|]. by replace (Segment.end_ s) with (Segment.start next) by lia.
Qed.

Lemma gaps_filled_elem gap_value segments r :
  r ∈ gaps_filled gap_value segments → r ∈ segments ∨ Segment.value r = gap_value.
Proof.
  induction segments as [|prev [|next rest] IH]; [by left..|].
  rewrite gaps_filled_unfold. case_decide.
  - intros [->|[->|Hr]%elem_of_cons]%elem_of_cons; [left; by left|by right|].
    destruct (IH Hr) as [?|?]; [left; by right|by right].
  - intros [->|Hr]%elem_of_cons; [left; by left|].
    destruct (IH Hr) as [?|?]; [left; by right|by right].
Qed.

Lemma gaps_filled_keeps gap_value segments s :
  s ∈ segments → s ∈ gaps_filled gap_value segments.
Proof.
  induction segments as [|prev [|next rest] IH]; [done..|].
  rewrite gaps_filled_unfold.
  intros [->|Hs]%elem_of_cons; [case_decide; by left|].
  case_decide; repeat right; by apply IH.
Qed.

(** X20.  On a non-empty input whose instants are in the nanosecond range and
    whose segments all have [start < end] and do not overlap one
    another, [from_segments_with_gaps] returns a valid
    Timeline that contains every input segment, whose other rows carry
    [gap_value], and which holds the value of an input segment at every
    instant of that segment. *)
Theorem from_segments_with_gaps_succeeds segments gap_value :
  segments ≠ [] → ns_frame segments →
  Forall (λ s, (Segment.start s < Segment.end_ s)%Z) segments →
  (∀ i j a b, i ≠ j → segments !! i = Some a → segments !! j = Some b → ¬ overlapping a b) →
  ∃ out,
    from_segments_with_gaps segments gap_value = Ok out
    ∧ _validate out = Ok ()
    ∧ (∀ s, s ∈ segments → s ∈ out)
    ∧ (∀ r, r ∈ out → r ∈ segments ∨ Segment.value r = gap_value)
    ∧ ∀ s t, s ∈ segments → (Segment.start s ≤ t)%Z → (t < Segment.end_ s)%Z →
        value_at out t = Some (Segment.value s).
Proof.
  intros Hne Hns Hwf Hdisj.
  pose proof (sorted_by_start_perm segments) as Hperm.
  pose proof (sorted_by_start_sorted segments) as Hsorted.
  set (sorted := sorted_by_start segments) in *.
  assert (Forall (λ s, (Segment.start s < Segment.end_ s)%Z) sorted) as Hwf'.
  { by rewrite Hperm. }
  assert (ns_frame (gaps_filled gap_value sorted)) as Hns'.
  { apply gaps_filled_ns. eapply ns_frame_perm; [|exact Hns]. by symmetry. }
  assert (∀ k prev next, sorted !! k = Some prev → sorted !! S k = Some next →
                         (Segment.end_ prev ≤ Segment.start next)%Z) as Hnb.
  { intros k prev next Hp Hn.
    pose proof (sorted_neighbours _ _ _ _ _ Hsorted Hp Hn) as Hle. simpl in Hle.
    pose proof Hperm as (_ & f & Hf & Hlook)%Permutation_inj.
    rewrite Hlook in Hp, Hn.
    assert (f k ≠ f (S k)) as Hfk by (intros E; apply Hf in E; lia).
    pose proof (Hdisj _ _ _ _ Hfk Hp Hn) as Hno. unfold overlapping in Hno.
    rewrite Forall_lookup in Hwf. pose proof (Hwf _ _ Hp). pose proof (Hwf _ _ Hn). lia. }
  destruct sorted as [|s0 rest] eqn:Esorted.
  { apply Permutation_nil_l in Hperm. by subst. }
  destruct (gaps_filled_chain gap_value rest s0 Hwf' Hnb) as [b Hchain].
  exists (gaps_filled gap_value (s0 :: rest)).
  split.
  { rewrite from_segments_with_gaps_filled by done. fold sorted. rewrite Esorted.
    by eapply from_segments_valid. }
  split; [by eapply validate_intro|].
  assert (∀ s, s ∈ segments → s ∈ gaps_filled gap_value (s0 :: rest)) as Hkeeps.
  { intros s Hs. apply gaps_filled_keeps. by rewrite Hperm. }
  split; [done|]. split.
  - intros r Hr. destruct (gaps_filled_elem _ _ _ Hr) as [Hin|?]; [|by right].
    left. by rewrite <- Hperm.
  - intros s t Hs H1 H2. unfold value_at.
    by rewrite (filter_contains _ _ _ s t Hchain (Hkeeps s Hs)).
Qed.

Lemma sorted_by_start_id segments :
  Sorted (λ a b, (Segment.start a ≤ Segment.start b)%Z) segments →
  sorted_by_start segments = segments.
Proof.
  induction 1 as [|s l Hl IH Hs]; [done|].
  change (sorted_by_start (s :: l)) with (insert_by_start s (sorted_by_start l)).
  rewrite IH. destruct l as [|r l]; [done|]. apply HdRel_inv in Hs. simpl.
  by rewrite bool_decide_eq_true_2.
Qed.

Lemma gaps_filled_id gap_value segments :
  contiguous segments → gaps_filled gap_value segments = segments.
Proof.
  induction segments as [|prev [|next rest] IH]; intros Hc; [done..|].
  apply contiguous_cons in Hc as [E Hc].
  rewrite gaps_filled_unfold, decide_False by lia. by rewrite IH.
Qed.

(** X21.  On a list that the validator accepts, [from_segments_with_gaps]
    inserts nothing and returns the list as [from_segments] does. *)
Theorem from_segments_with_gaps_valid_input segments gap_value :
  _validate segments = Ok () →
  from_segments_with_gaps segments gap_value = Ok segments.
Proof.
  intros Hv. pose proof Hv as (a & b & Hc)%validate_chain.
  rewrite from_segments_with_gaps_filled by by eapply chain_nonempty.
  rewrite sorted_by_start_id.
  - rewrite gaps_filled_id by by eapply chain_contiguous.
    unfold from_segments. by rewrite Hv.
  - clear Hv. induction Hc as [s ?|s b df ? Hc IH]; [by repeat constructor|].
    constructor; [done|]. destruct Hc; constructor; lia.
Qed.

Lemma nodup_fmap_inj {A B} (f : A → B) (l : list A) x y :
  NoDup (f <$> l) → x ∈ l → y ∈ l → f x = f y → x = y.
Proof.
  induction l as [|z l IH]; intros Hn Hx Hy Hf; [by apply elem_of_nil in Hx|].
  rewrite fmap_cons in Hn. apply NoDup_cons in Hn as [Hz Hn].
  apply elem_of_cons in Hx as [->|Hx]; apply elem_of_cons in Hy as [->|Hy]; [done| | |by apply IH].
  - destruct Hz. rewrite Hf. by apply list_elem_of_fmap_2.
  - destruct Hz. rewrite <- Hf. by apply list_elem_of_fmap_2.
Qed.

(** X22.  When all starts are different, the order in which the segments are
    given does not matter to [from_segments_with_gaps]. *)
Theorem from_segments_with_gaps_any_order segments segments' gap_value :
  segments ≡ₚ segments' → NoDup (Segment.start <$> segments) →
  from_segments_with_gaps segments gap_value = from_segments_with_gaps segments' gap_value.
Proof.
  intros Hperm Hnodup.
  destruct segments as [|s rest].
  { apply Permutation_nil_l in Hperm. by subst. }
  assert (segments' ≠ []) as Hne'.
  { intros ->. by apply Permutation_nil_r in Hperm. }
  rewrite !from_segments_with_gaps_filled by done. do 2 f_equal.
  apply (StronglySorted_unique_strong (λ a b, (Segment.start a ≤ Segment.start b)%Z)).
  - intros x1 x2 Hx1 Hx2 H1 H2.
    apply (nodup_fmap_inj Segment.start (s :: rest)); [done| | |lia].
    + by rewrite <- (sorted_by_start_perm (s :: rest)).
    + by rewrite Hperm, <- (sorted_by_start_perm segments').
  - apply Sorted_StronglySorted; [intros ???; lia|apply sorted_by_start_sorted].
  - apply Sorted_StronglySorted; [intros ???; lia|apply sorted_by_start_sorted].
  - by rewrite !sorted_by_start_perm.
Qed.

End GapsAlgebra.

Section SliceComposition.

Context {T : Type}.
Implicit Types (tl df sel out : DataFrame T) (s r : Segment.t T) (lo hi : Z).

Lemma filter_fmap_iff {A B} (f : A → B) (P : B → Prop) (Q : A → Prop)
    `{∀ y, Decision (P y)} `{∀ x, Decision (Q x)} (l : list A) :
  (∀ x, P (f x) ↔ Q x) → filter P (f <$> l) = f <$> filter Q l.
Proof.
  intros HPQ. induction l as [|x l IH]; [done|]. rewrite fmap_cons.
  destruct (decide (Q x)) as [Hq|Hq].
  - rewrite (filter_cons_True P) by by apply HPQ.
    rewrite (filter_cons_True Q) by done. by rewrite fmap_cons, IH.
  - rewrite (filter_cons_False P) by by rewrite HPQ.
    by rewrite (filter_cons_False Q).
Qed.

(** On a chain of selected rows, clipping is the same as bounding every
    start from below by [lo] and every end from above by [hi]. *)
Lemma clipped_uniform lo hi a b sel :
  chain a b sel → Forall (overlaps lo hi) sel →
  clipped lo hi sel
  = (λ r, Segment.mk (Z.max (Segment.start r) lo) (Z.min (Segment.end_ r) hi)
                     (Segment.value r)) <$> sel.
Proof.
  intros Hc Ho. apply list_eq. intros i. rewrite clipped_lookup, list_lookup_fmap.
  destruct (sel !! i) as [r|] eqn:Hr; [|done]. simpl. f_equal. unfold clip.
  rewrite Forall_lookup in Ho.
  assert (i ≠ 0 → (lo < Segment.start r)%Z) as Hfirst.
  { intros Hi. destruct (sel !! 0) as [r0|] eqn:Hr0.
    - pose proof (chain_disjoint a b sel 0 i r0 r Hc ltac:(lia) Hr0 Hr).
      pose proof (Ho 0 r0 Hr0) as [? _]. lia.
    - apply lookup_ge_None in Hr0. apply lookup_lt_Some in Hr. lia. }
  assert (S i ≠ length sel → (Segment.end_ r < hi)%Z) as Hlast.
  { intros Hi. pose proof (lookup_lt_Some _ _ _ Hr).
    destruct (sel !! pred (length sel)) as [rl|] eqn:Hrl.
    - pose proof (chain_disjoint a b sel i (pred (length sel)) r rl Hc ltac:(lia) Hr Hrl).
      pose proof (Ho _ rl Hrl) as [_ ?]. lia.
    - apply lookup_ge_None in Hrl. lia. }
  f_equal.
  - case_decide as Hd; [lia|]. destruct (decide (i = 0)); [lia|]. specialize (Hfirst ltac:(done)). lia.
  - case_decide as Hd; [lia|]. destruct (decide (S i = length sel)); [lia|].
    specialize (Hlast ltac:(done)). lia.
Qed.

(** X7.  Slicing a slice of a validated Timeline with narrower bounds
    [lo <= lo' < hi' <= hi] gives the same rows as slicing the Timeline
    directly with the narrower bounds. *)
Theorem slice_nested tl lo hi lo' hi' :
  _validate tl = Ok () →
  (lo ≤ lo')%Z → (lo' < hi')%Z → (hi' ≤ hi)%Z →
  ∃ out, slice tl lo hi = Ok out ∧ slice out lo' hi' = slice tl lo' hi'.
Proof.
  intros (a & b & Hc)%validate_chain Hlo Hlt Hhi.
  exists (clipped lo hi (filter (overlaps lo hi) tl)). split; [apply slice_clipped|].
  rewrite !slice_clipped. f_equal.
  assert (filter (overlaps lo' hi') (filter (overlaps lo hi) tl) = filter (overlaps lo' hi') tl)
    as Hsub.
  { rewrite list_filter_filter. apply list_filter_iff. intros r. unfold overlaps. lia. }
  assert (Forall (overlaps lo hi) (filter (overlaps lo hi) tl)) as Ho.
  { apply Forall_forall. intros r Hr. by apply list_elem_of_filter in Hr as [? _]. }
  assert (Forall (overlaps lo' hi') (filter (overlaps lo' hi') tl)) as Ho'.
  { apply Forall_forall. intros r Hr. by apply list_elem_of_filter in Hr as [? _]. }
  destruct (filter_chain lo hi _ _ _ Hc) as [Hnil|(a1 & b1 & Hsel)].
  { rewrite Hnil in *. simpl in Hsub. rewrite filter_nil in Hsub. by rewrite <- Hsub. }
  rewrite (clipped_uniform lo hi a1 b1 _ Hsel Ho).
  rewrite (filter_fmap_iff _ (overlaps lo' hi') (overlaps lo' hi')).
  2:{ intros r. unfold overlaps. simpl. lia. }
  rewrite Hsub.
  destruct (filter_chain lo' hi' _ _ _ Hc) as [->|(a2 & b2 & Hsel')]; [done|].
  set (sel' := filter (overlaps lo' hi') tl) in *.
  apply list_eq. intros i. rewrite !clipped_lookup, list_lookup_fmap, length_fmap.
  destruct (sel' !! i) as [r|] eqn:Hr; [|done]. simpl. f_equal. unfold clip. simpl.
  rewrite Forall_lookup in Ho'.
  assert (i ≠ 0 → (lo' < Segment.start r)%Z) as Hfirst.
  { intros Hi. destruct (sel' !! 0) as [r0|] eqn:Hr0.
    - pose proof (chain_disjoint a2 b2 sel' 0 i r0 r Hsel' ltac:(lia) Hr0 Hr).
      pose proof (Ho' 0 r0 Hr0) as [? _]. lia.
    - apply lookup_ge_None in Hr0. apply lookup_lt_Some in Hr. lia. }
  assert (S i ≠ length sel' → (Segment.end_ r < hi')%Z) as Hlast.
  { intros Hi. pose proof (lookup_lt_Some _ _ _ Hr).
    destruct (sel' !! pred (length sel')) as [rl|] eqn:Hrl.
    - pose proof (chain_disjoint a2 b2 sel' i (pred (length sel')) r rl Hsel' ltac:(lia) Hr Hrl).
      pose proof (Ho' _ rl Hrl) as [_ ?]. lia.
    - apply lookup_ge_None in Hrl. lia. }
  f_equal.
  - destruct (decide (i = 0)) as [->|Hi].
    + repeat case_decide; lia.
    + specialize (Hfirst Hi). rewrite !decide_False by lia. lia.
  - destruct (decide (S i = length sel')) as [Hi|Hi].
    + repeat case_decide; lia.
    + specialize (Hlast Hi). rewrite !decide_False by lia. lia.
Qed.

(** X8.  [slice] looks at the boundaries only: slicing a mapped Timeline gives
    the rows of the slice of the original with [func] applied to each
    value. *)
Theorem slice_of_map {U} (func : T → U) tl lo hi mapped sliced :
  Timeline.map tl func = Ok mapped → slice tl lo hi = Ok sliced →
  slice mapped lo hi
  = Ok ((λ r, Segment.mk (Segment.start r) (Segment.end_ r) (func (Segment.value r))) <$> sliced).
Proof.
  rewrite map_validates_boundaries. destruct (_validate tl) as [[]|]; [|done].
  cbn [mbind result_bind]. intros [= <-]. rewrite !slice_clipped. intros [= <-]. f_equal.
  rewrite (filter_fmap_iff _ (overlaps lo hi) (overlaps lo hi)) by done.
  apply list_eq. intros i.
  rewrite clipped_lookup, !list_lookup_fmap, clipped_lookup, length_fmap.
  by destruct (filter (overlaps lo hi) tl !! i).
Qed.

End SliceComposition.

Section ValidatedResults.

Context {T : Type} `{PyValue T}.

Lemma from_segments_validated (segments : list (Segment.t T)) out :
  from_segments segments = Ok out → _validate out = Ok ().
Proof. by intros [-> ?]%from_segments_Ok_inv. Qed.

(** X23.  Apart from [slice], every constructor and operator returns only
    frames that pass the validator, whatever its arguments. *)
Theorem results_are_validated :
  (∀ (segments : list (Segment.t T)) out,
      from_segments segments = Ok out → _validate out = Ok ())
  ∧ (∀ (df : DataFrame T) out, from_dataframe df = Ok out → _validate out = Ok ())
  ∧ (∀ (segments : list (Segment.t T)) gap_value out,
      from_segments_with_gaps segments gap_value = Ok out → _validate out = Ok ())
  ∧ (∀ U (tl : Timeline.t T) (func : T → U) out,
      Timeline.map tl func = Ok out → _validate out = Ok ())
  ∧ (∀ (tl : Timeline.t T) out, merge_adjacent tl = Ok out → _validate out = Ok ())
  ∧ (∀ (timelines : list (Timeline.t T)) out,
      cross_product timelines = Ok out → _validate out = Ok ()).
Proof.
  split; [apply from_segments_validated|]. split; [apply from_segments_validated|].
  split; [|split; [|split]].
  - intros segments gap_value out. unfold from_segments_with_gaps.
    destruct segments; [done|]. destruct (fill_gaps _ _ _ _); [|done].
    apply from_segments_validated.
  - intros U tl func out. unfold Timeline.map, from_dataframe.
    destruct (_validate _) as [[]|] eqn:E; [|done]. by intros [= <-].
  - intros tl out. apply from_segments_validated.
  - intros timelines out. unfold cross_product.
    destruct (mapM Timeline.start timelines); [|done]. cbn [mbind result_bind].
    destruct (mapM Timeline.end_ timelines); [|done]. cbn [mbind result_bind].
    destruct (assert_ _ msg_start) as [[]|]; [|done]. cbn [mbind result_bind].
    destruct (assert_ _ msg_end) as [[]|]; [|done]. cbn [mbind result_bind].
    destruct (sweep _ _ _ _); [|done]. cbn [mbind result_bind].
    intros Hout. unfold from_segments in Hout.
    destruct (_validate a1) as [[]|] eqn:E; [|done]. by injection Hout as <-.
Qed.

End ValidatedResults.

(** ** The scenarios of the test suite, and the claims at concrete inputs *)

Section Scenarios.

Local Open Scope Z_scope.

Example creation_with_gap_fails :
  from_segments [ts 0 2 1; ts 3 5 2] = Raise (AssertionError msg_contiguous).
Proof. reflexivity. Qed.

Example creation_not_sorted_fails :
  from_segments [ts 2 4 2; ts 0 2 1] = Raise (AssertionError msg_sorted).
Proof. reflexivity. Qed.

(** Instants outside the nanosecond range (here midnight of 1 January
    3000 and of the day after) fail the dtype check, which comes before
    the sort check. *)
Example creation_out_of_range_fails :
  from_segments [ts 32503766400000000000 32503852800000000000 2;
                 ts 32503680000000000000 32503766400000000000 1]
  = Raise (AssertionError msg_start_dtype)
  ∧ from_segments [ts 0 32503680000000000000 1] = Raise (AssertionError msg_end_dtype).
Proof. split; reflexivity. Qed.

Example slice_shrinks_start_and_end :
  slice [ts 0 60 1; ts 60 120 2] 30 90 = Ok [ts 30 60 1; ts 60 90 2].
Proof. reflexivity. Qed.

Example merge_adjacent_segments :
  merge_adjacent [ts 0 1 1; ts 1 2 1; ts 2 3 2; ts 3 4 3; ts 4 5 3]
  = Ok [ts 0 2 1; ts 2 3 2; ts 3 5 3].
Proof. reflexivity. Qed.

(** Rows with a NaN value come back from [iterrows] with NaT, which
    differs from itself: they are not merged, and merging again changes
    nothing. *)
Example merge_adjacent_nan :
  merge_adjacent [Segment.mk 0 1 NaN; Segment.mk 1 2 NaN; Segment.mk 2 3 (Number 2)]
  = Ok [Segment.mk 0 1 NaT; Segment.mk 1 2 NaT; Segment.mk 2 3 (Number 2)]
  ∧ merge_adjacent [Segment.mk 0 1 NaT; Segment.mk 1 2 NaT; Segment.mk 2 3 (Number 2)]
    = Ok [Segment.mk 0 1 NaT; Segment.mk 1 2 NaT; Segment.mk 2 3 (Number 2)].
Proof. split; reflexivity. Qed.

Example cross_product_two_timelines :
  cross_product [[ts 0 5 1; ts 5 10 2]; [ts 0 3 3; ts 3 7 4; ts 7 10 5]]
  = Ok [Segment.mk 0 3 [1; 3]; Segment.mk 3 5 [1; 4];
        Segment.mk 5 7 [2; 4]; Segment.mk 7 10 [2; 5]].
Proof. vm_compute. reflexivity. Qed.

(** Neighbouring rows of a product that carry the same tuple stay apart. *)
Example cross_product_keeps_equal_neighbours :
  cross_product [[ts 0 5 1; ts 5 10 1]]
  = Ok [Segment.mk 0 5 [1]; Segment.mk 5 10 [1]].
Proof. vm_compute. reflexivity. Qed.

(** A zero-width object, which only [slice] can produce, is not a
    Timeline of the data model; its product has no row and is rejected. *)
Example cross_product_zero_width_fails :
  slice [ts 0 10 1] 3 3 = Ok [ts 3 3 1]
  ∧ cross_product [[ts 3 3 1]] = Raise (AssertionError msg_empty).
Proof. split; vm_compute; reflexivity. Qed.

Example cross_product_different_start_fails :
  cross_product [[ts 0 5 1]; [ts 1 5 2]] = Raise (AssertionError msg_start).
Proof. vm_compute. reflexivity. Qed.

Example gaps_are_filled :
  from_segments_with_gaps [ts 6 9 1; ts 0 2 1; ts 17 20 2] 0
  = Ok [ts 0 2 1; ts 2 6 0; ts 6 9 1; ts 9 17 0; ts 17 20 2].
Proof. reflexivity. Qed.

(** C1 at the two timelines of the test suite. *)
Lemma cross_product_sweeps_witness :
  let timelines := [[ts 0 5 1; ts 5 10 2]; [ts 0 3 3; ts 3 7 4; ts 7 10 5]] in
  ∃ bs out,
    is_boundaries timelines bs
    ∧ cross_product timelines = Ok out
    ∧ length out = (length bs - 1)%nat
    ∧ Forall2 (product_row timelines) (consecutive_pairs bs) out.
Proof.
  apply (cross_product_sweeps
           [[ts 0 5 1; ts 5 10 2]; [ts 0 3 3; ts 3 7 4; ts 7 10 5]] 0 10).
  - discriminate.
  - repeat constructor.
  - repeat constructor.
Defined.

(** C2 at an unsorted list: the sort check is the one that fails. *)
Lemma from_segments_checks_witness :
  from_segments [ts 2 4 2; ts 0 2 1] = Raise (AssertionError msg_sorted).
Proof.
  apply (from_segments_checks [ts 2 4 2; ts 0 2 1]).
  - discriminate.
  - apply ns_frame_intro; reflexivity.
  - intros Hs. apply Sorted_inv in Hs as [_ Hs]. apply HdRel_inv in Hs. simpl in Hs. lia.
Defined.

(** C2 as stated fails: two segments with equal starts are not in strictly
    increasing start order, yet the failure is not the sort failure. *)
Lemma from_segments_equal_starts_counterexample :
  ¬ StronglySorted Z.lt (Segment.start <$> [ts 0 1 7; ts 0 2 7])
  ∧ from_segments [ts 0 1 7; ts 0 2 7] = Raise (AssertionError msg_contiguous)
  ∧ from_segments [ts 0 1 7; ts 0 2 7] ≠ Raise (AssertionError msg_sorted).
Proof.
  split; [|split]; [|reflexivity|discriminate].
  intros Hs. apply StronglySorted_inv in Hs as [_ Hs].
  apply Forall_cons in Hs as [Hs _]. simpl in Hs. lia.
Qed.

(** C3 (amended) at one segment and the bounds [6 > 4]. *)
Lemma slice_inverted_bounds_witness :
  6 > 4
  ∧ (slice [ts 0 10 1] 6 4 = Ok []
     ↔ ∀ s, s ∈ [ts 0 10 1] → ¬ (Segment.start s < 4 ∧ Segment.end_ s > 6))
  ∧ (_validate [ts 0 10 1] = Ok () →
     ∀ s, s ∈ [ts 0 10 1] → Segment.start s < 4 → Segment.end_ s > 6 →
          slice [ts 0 10 1] 6 4 = Ok [Segment.mk 6 4 (Segment.value s)]).
Proof.
  split; [reflexivity|]. apply (slice_inverted_bounds [ts 0 10 1] 6 4). reflexivity.
Defined.

(** C3 as stated fails: with [lo = 6 > hi = 4] the segment [[0, 10)] is
    selected and the result has one row. *)
Lemma slice_inverted_bounds_counterexample :
  6 > 4
  ∧ _validate [ts 0 10 1] = Ok ()
  ∧ filter (λ s, Segment.end_ s > 6 ∧ Segment.start s < 4) [ts 0 10 1] = [ts 0 10 1]
  ∧ slice [ts 0 10 1] 6 4 = Ok [ts 6 4 1]
  ∧ slice [ts 0 10 1] 6 4 ≠ Ok [].
Proof. repeat split; (reflexivity || discriminate). Qed.

(** C4 at a slice of three rows that clips both ends. *)
Lemma slice_selects_and_clips_witness :
  let tl := [ts 0 3 3; ts 3 7 4; ts 7 10 5] in
  let selected := filter (λ s, Segment.end_ s > 1 ∧ Segment.start s < 8) tl in
  1 ≤ 8
  ∧ ∃ out,
      slice tl 1 8 = Ok out
      ∧ length out = length selected
      ∧ (∀ i s, selected !! i = Some s →
           out !! i = Some (Segment.mk
             (if decide (i = 0%nat ∧ Segment.start s < 1) then 1 else Segment.start s)
             (if decide (S i = length selected ∧ 8 < Segment.end_ s)
              then 8 else Segment.end_ s)
             (Segment.value s)))
      ∧ (∀ a, out ≠ [] → Timeline.start tl = Ok a → 1 < a → Timeline.start out = Ok a)
      ∧ (∀ b, out ≠ [] → Timeline.end_ tl = Ok b → b < 8 → Timeline.end_ out = Ok b).
Proof.
  split; [lia|].
  apply (slice_selects_and_clips [ts 0 3 3; ts 3 7 4; ts 7 10 5] 1 8).
  - apply constructed_valid. reflexivity.
  - lia.
Defined.

(** C5 at bounds after the total end. *)
Lemma slice_outside_span_is_empty_witness :
  filter (λ s, Segment.end_ s > 20 ∧ Segment.start s < 30) [ts 0 5 1; ts 5 10 2] = []
  ∧ slice [ts 0 5 1; ts 5 10 2] 20 30 = Ok []
  ∧ from_dataframe (T := Z) [] = Raise (AssertionError msg_empty).
Proof.
  apply (slice_outside_span_is_empty [ts 0 5 1; ts 5 10 2] 20 30 0 10).
  - apply constructed_valid. reflexivity.
  - reflexivity.
  - reflexivity.
  - lia.
  - right. lia.
Defined.

(** C6 (amended) at the merge scenario of the test suite. *)
Lemma merge_adjacent_merges_runs_witness :
  ∃ rs out,
    run_partition rs [ts 0 1 1; ts 1 2 1; ts 2 3 2]
    ∧ Forall2 spans rs out
    ∧ merge_adjacent [ts 0 1 1; ts 1 2 1; ts 2 3 2] = Ok out
    ∧ _validate out = Ok ().
Proof.
  apply (merge_adjacent_merges_runs [ts 0 1 1; ts 1 2 1; ts 2 3 2]).
  - reflexivity.
  - apply int_values_plain.
Defined.

(** C6 as stated fails: on a valid Timeline of floats with two NaN rows
    the result carries NaT in place of the NaN values, so that no row of
    the result has the value of a run of the input. *)
Lemma merge_adjacent_merges_runs_counterexample :
  let tl := [Segment.mk 0 1 NaN; Segment.mk 1 2 NaN; Segment.mk 2 3 (Number 2)] in
  _validate tl = Ok ()
  ∧ merge_adjacent tl
    = Ok [Segment.mk 0 1 NaT; Segment.mk 1 2 NaT; Segment.mk 2 3 (Number 2)]
  ∧ ¬ ∃ rs out, run_partition rs tl ∧ Forall2 spans rs out ∧ merge_adjacent tl = Ok out.
Proof.
  split; [reflexivity|]. split; [reflexivity|].
  intros (rs & out & (Hcat & _ & _) & Hspans & [= <-]).
  apply Forall2_cons_inv_r in Hspans as (run & rs' & (first & final & Hfirst & _ & Hseg) & _ & ->).
  injection Hseg as _ _ Hvalue.
  assert (first ∈ concat (run :: rs')) as Hin.
  { simpl. apply elem_of_app. left. by apply head_Some_elem_of. }
  rewrite Hcat in Hin.
  repeat (apply elem_of_cons in Hin as [-> | Hin]; [done|]).
  by apply elem_of_nil in Hin.
Qed.


(** C8 at the map scenario of the test suite. *)
Lemma map_keeps_boundaries_witness :
  ∃ out,
    Timeline.map [ts 0 1 1; ts 1 2 2; ts 2 3 3] (Z.mul 10) = Ok out
    ∧ Timeline.map [ts 0 1 1; ts 1 2 2; ts 2 3 3] (Z.mul 10) = from_dataframe out
    ∧ _validate out = Ok ()
    ∧ length out = length [ts 0 1 1; ts 1 2 2; ts 2 3 3]
    ∧ ∀ i r, [ts 0 1 1; ts 1 2 2; ts 2 3 3] !! i = Some r →
        out !! i = Some (Segment.mk (Segment.start r) (Segment.end_ r) (10 * Segment.value r)).
Proof. apply (map_keeps_boundaries [ts 0 1 1; ts 1 2 2; ts 2 3 3] (Z.mul 10)). reflexivity. Defined.

(** C9 (amended) at an unsorted input with a gap and an overlap. *)
Lemma from_segments_with_gaps_fills_witness :
  from_segments_with_gaps [ts 6 9 1; ts 0 2 1; ts 7 10 2] 0
  = Raise (AssertionError msg_contiguous).
Proof.
  apply (from_segments_with_gaps_fills [ts 6 9 1; ts 0 2 1; ts 7 10 2] 0 ltac:(discriminate))
    with (i := 0%nat) (j := 2%nat) (a := ts 6 9 1) (b := ts 7 10 2).
  - apply ns_frame_intro; reflexivity.
  - repeat constructor; simpl; lia.
  - lia.
  - reflexivity.
  - reflexivity.
  - split; simpl; lia.
Defined.

(** C9 as stated fails: the input contains the overlapping segments
    [[6, 9)] and [[7, 10)], and the failure is the sort failure. *)
Lemma from_segments_with_gaps_counterexample :
  overlapping (ts 6 9 1) (ts 7 10 2)
  ∧ from_segments_with_gaps [ts 5 2 1; ts 6 9 1; ts 7 10 2] 0
    = Raise (AssertionError msg_sorted)
  ∧ from_segments_with_gaps [ts 5 2 1; ts 6 9 1; ts 7 10 2] 0
    ≠ Raise (AssertionError msg_contiguous).
Proof. split; [split; simpl; lia|]. split; [reflexivity|discriminate]. Qed.

(** C10 at an instant inside the second row. *)
Lemma slice_instant_zero_width_witness :
  slice [ts 0 5 1; ts 5 10 2] 7 7 = Ok [Segment.mk 7 7 2]
  ∧ from_dataframe [Segment.mk 7 7 2] = Raise (AssertionError msg_interval)
  ∧ from_segments [Segment.mk 7 7 2] = Raise (AssertionError msg_interval).
Proof.
  apply (slice_instant_zero_width [ts 0 5 1; ts 5 10 2] (ts 5 10 2) 7).
  - reflexivity.
  - right. left.
  - simpl. lia.
  - simpl. lia.
Defined.

End Scenarios.

(** ** The further properties at concrete inputs *)

Section FurtherScenarios.

Local Open Scope Z_scope.

(** X1 at a concrete input. *)
Lemma from_segments_accepts_witness :
  from_segments [ts 0 5 1; ts 5 10 2] = Ok [ts 0 5 1; ts 5 10 2].
Proof.
  apply (from_segments_accepts [ts 0 5 1; ts 5 10 2] [ts 0 5 1; ts 5 10 2]).
  split; [reflexivity|]. split; [discriminate|].
  split; [apply ns_frame_intro; reflexivity|]. split.
  - intros [|[|i]] r r' H1 H2; simplify_eq/=. reflexivity.
  - repeat constructor.
Defined.

(** X2 at a concrete input. *)
Lemma validated_strictly_increasing_witness :
  StronglySorted Z.lt (Segment.start <$> [ts 0 5 1; ts 5 10 2])
  ∧ StronglySorted Z.lt (Segment.end_ <$> [ts 0 5 1; ts 5 10 2])
  ∧ ∀ i j r r', (i < j)%nat → [ts 0 5 1; ts 5 10 2] !! i = Some r →
      [ts 0 5 1; ts 5 10 2] !! j = Some r' → Segment.end_ r ≤ Segment.start r'.
Proof. apply (validated_strictly_increasing [ts 0 5 1; ts 5 10 2]). reflexivity. Defined.

(** X3 at a concrete input. *)
Lemma validated_span_witness :
  ∃ a b,
    Timeline.start [ts 0 5 1; ts 5 10 2] = Ok a
    ∧ Timeline.end_ [ts 0 5 1; ts 5 10 2] = Ok b ∧ a < b
    ∧ (∀ r, r ∈ [ts 0 5 1; ts 5 10 2] → a ≤ Segment.start r ∧ Segment.end_ r ≤ b)
    ∧ ∀ t,
        (a ≤ t < b →
           ∃ r, filter (λ s, Segment.start s ≤ t ∧ t < Segment.end_ s) [ts 0 5 1; ts 5 10 2] = [r]
                ∧ value_at [ts 0 5 1; ts 5 10 2] t = Some (Segment.value r))
        ∧ (¬ (a ≤ t < b) →
           filter (λ s, Segment.start s ≤ t ∧ t < Segment.end_ s) [ts 0 5 1; ts 5 10 2] = []
           ∧ value_at [ts 0 5 1; ts 5 10 2] t = None).
Proof. apply (validated_span [ts 0 5 1; ts 5 10 2]). reflexivity. Defined.

(** X4 at a concrete input. *)
Lemma slice_covering_span_witness :
  slice [ts 0 5 1; ts 5 10 2] (-3) 12 = Ok [ts 0 5 1; ts 5 10 2].
Proof.
  apply (slice_covering_span [ts 0 5 1; ts 5 10 2] (-3) 12 0 10);
    [reflexivity|reflexivity|reflexivity|lia|lia].
Defined.

(** X5 at a concrete input. *)
Lemma slice_idempotent_witness :
  slice [ts 30 60 1; ts 60 90 2] 30 90 = Ok [ts 30 60 1; ts 60 90 2].
Proof.
  apply (slice_idempotent [ts 0 60 1; ts 60 120 2] 30 90); [lia|reflexivity].
Defined.

(** X6 at a concrete input. *)
Lemma slice_restricts_witness :
  ∃ out,
    slice [ts 0 5 1; ts 5 10 2] 3 20 = Ok out
    ∧ _validate out = Ok ()
    ∧ Timeline.start out = Ok (Z.max 0 3)
    ∧ Timeline.end_ out = Ok (Z.min 10 20)
    ∧ ∀ t, value_at out t
           = if decide (3 ≤ t < 20) then value_at [ts 0 5 1; ts 5 10 2] t else None.
Proof.
  apply (slice_restricts [ts 0 5 1; ts 5 10 2] 3 20 0 10);
    [reflexivity|reflexivity|reflexivity|lia|lia|lia].
Defined.

(** X7 at a concrete input. *)
Lemma slice_nested_witness :
  ∃ out, slice [ts 0 5 1; ts 5 10 2] 2 9 = Ok out
         ∧ slice out 3 7 = slice [ts 0 5 1; ts 5 10 2] 3 7.
Proof.
  apply (slice_nested [ts 0 5 1; ts 5 10 2] 2 9 3 7); [reflexivity|lia|lia|lia].
Defined.

(** X8 at a concrete input. *)
Lemma slice_of_map_witness :
  slice [ts 0 5 10; ts 5 10 20] 3 7
  = Ok ((λ r, Segment.mk (Segment.start r) (Segment.end_ r) (10 * Segment.value r))
          <$> [ts 3 5 1; ts 5 7 2]).
Proof.
  apply (slice_of_map (Z.mul 10) [ts 0 5 1; ts 5 10 2] 3 7); reflexivity.
Defined.

(** X9 at a concrete input. *)
Lemma merge_adjacent_preserves_witness :
  ∃ out,
    merge_adjacent [ts 0 1 1; ts 1 2 1; ts 2 3 2] = Ok out
    ∧ Timeline.start out = Timeline.start [ts 0 1 1; ts 1 2 1; ts 2 3 2]
    ∧ Timeline.end_ out = Timeline.end_ [ts 0 1 1; ts 1 2 1; ts 2 3 2]
    ∧ (∀ t, value_at out t = value_at [ts 0 1 1; ts 1 2 1; ts 2 3 2] t)
    ∧ (length out ≤ length [ts 0 1 1; ts 1 2 1; ts 2 3 2])%nat
    ∧ no_adjacent_equal out.
Proof.
  apply (merge_adjacent_preserves [ts 0 1 1; ts 1 2 1; ts 2 3 2]).
  - reflexivity.
  - apply int_values_plain.
Defined.

(** X10 at a concrete input. *)
Lemma merge_adjacent_fixed_point_witness :
  merge_adjacent [ts 0 1 1; ts 1 2 2] = Ok [ts 0 1 1; ts 1 2 2]
  ↔ no_adjacent_equal [ts 0 1 1; ts 1 2 2].
Proof.
  apply (merge_adjacent_fixed_point [ts 0 1 1; ts 1 2 2]).
  - reflexivity.
  - apply int_values_plain.
Defined.

(** X11 at a concrete input. *)
Lemma merge_adjacent_rejects_invalid_witness :
  merge_adjacent [ts 3 3 1] = Raise (AssertionError msg_interval).
Proof.
  apply (merge_adjacent_rejects_invalid [ts 3 3 1]).
  - apply (constructed_slice [ts 0 10 1] 3 3); [apply constructed_valid|]; reflexivity.
  - reflexivity.
Defined.

(** X12 at a concrete input. *)
Lemma map_succeeds_iff_witness :
  Timeline.map [ts 3 3 1] (Z.mul 10) = Raise (AssertionError msg_interval).
Proof. apply (map_succeeds_iff (Z.mul 10) [ts 3 3 1]). reflexivity. Defined.

(** X13 at a concrete input. *)
Lemma map_pointwise_witness :
  Timeline.start [ts 0 1 10; ts 1 2 20] = Timeline.start [ts 0 1 1; ts 1 2 2]
  ∧ Timeline.end_ [ts 0 1 10; ts 1 2 20] = Timeline.end_ [ts 0 1 1; ts 1 2 2]
  ∧ ∀ t, value_at [ts 0 1 10; ts 1 2 20] t = Z.mul 10 <$> value_at [ts 0 1 1; ts 1 2 2] t.
Proof. apply (map_pointwise (Z.mul 10) [ts 0 1 1; ts 1 2 2]). reflexivity. Defined.

(** X14 at a concrete input. *)
Lemma map_functor_witness :
  Timeline.map [ts 0 1 1; ts 1 2 2] (λ x, x) = Ok [ts 0 1 1; ts 1 2 2]
  ∧ (Timeline.map [ts 0 1 1; ts 1 2 2] (Z.mul 10) ≫= λ m, Timeline.map m Z.succ)
    = Timeline.map [ts 0 1 1; ts 1 2 2] (Z.succ ∘ Z.mul 10).
Proof. apply (map_functor (Z.mul 10) Z.succ [ts 0 1 1; ts 1 2 2]). reflexivity. Defined.

(** X15 at a concrete input. *)
Lemma cross_product_pointwise_witness :
  let timelines := [[ts 0 5 1; ts 5 10 2]; [ts 0 3 3; ts 3 7 4; ts 7 10 5]] in
  ∃ out,
    cross_product timelines = Ok out
    ∧ _validate out = Ok ()
    ∧ Timeline.start out = Ok 0
    ∧ Timeline.end_ out = Ok 10
    ∧ ∀ t, value_at out t = mapM (λ tl, value_at tl t) timelines.
Proof.
  apply (cross_product_pointwise
           [[ts 0 5 1; ts 5 10 2]; [ts 0 3 3; ts 3 7 4; ts 7 10 5]] 0 10).
  - discriminate.
  - repeat constructor.
  - repeat constructor.
Defined.

(** X16 at a concrete input. *)
Lemma cross_product_single_witness :
  cross_product [[ts 0 5 1; ts 5 10 2]]
  = Ok ((λ r, Segment.mk (Segment.start r) (Segment.end_ r) [Segment.value r])
          <$> [ts 0 5 1; ts 5 10 2]).
Proof. apply (cross_product_single [ts 0 5 1; ts 5 10 2]). reflexivity. Defined.

(** X17 at a concrete input. *)
Lemma cross_product_empty_frame_witness :
  cross_product [[ts 0 5 1]; []] = Raise IndexError.
Proof. apply (cross_product_empty_frame [[ts 0 5 1]; []]). right. left. Defined.

(** X18 at a concrete input. *)
Lemma cross_product_start_mismatch_witness :
  cross_product [[ts 0 5 1]; [ts 1 4 2]] = Raise (AssertionError msg_start).
Proof.
  apply (cross_product_start_mismatch [[ts 0 5 1]; [ts 1 4 2]] [ts 0 5 1] [ts 1 4 2] 0 1).
  - repeat constructor; discriminate.
  - left.
  - right. left.
  - reflexivity.
  - reflexivity.
  - discriminate.
Defined.

(** X19 at a concrete input. *)
Lemma cross_product_end_mismatch_witness :
  cross_product [[ts 0 4 1]; [ts 0 5 2]] = Raise (AssertionError msg_end).
Proof.
  apply (cross_product_end_mismatch [[ts 0 4 1]; [ts 0 5 2]] 0 [ts 0 4 1] [ts 0 5 2] 4 5).
  - repeat constructor.
  - left.
  - right. left.
  - reflexivity.
  - reflexivity.
  - discriminate.
Defined.

(** X20 at a concrete input. *)
Lemma from_segments_with_gaps_succeeds_witness :
  ∃ out,
    from_segments_with_gaps [ts 6 9 1; ts 0 2 1] 0 = Ok out
    ∧ _validate out = Ok ()
    ∧ (∀ s, s ∈ [ts 6 9 1; ts 0 2 1] → s ∈ out)
    ∧ (∀ r, r ∈ out → r ∈ [ts 6 9 1; ts 0 2 1] ∨ Segment.value r = 0)
    ∧ ∀ s t, s ∈ [ts 6 9 1; ts 0 2 1] → Segment.start s ≤ t → t < Segment.end_ s →
        value_at out t = Some (Segment.value s).
Proof.
  apply (from_segments_with_gaps_succeeds [ts 6 9 1; ts 0 2 1] 0).
  - discriminate.
  - apply ns_frame_intro; reflexivity.
  - repeat constructor.
  - intros [|[|i]] [|[|j]] a b Hij Ha Hb [H1 H2]; simplify_eq/=; lia.
Defined.

(** X21 at a concrete input. *)
Lemma from_segments_with_gaps_valid_input_witness :
  from_segments_with_gaps [ts 0 5 1; ts 5 10 2] 0 = Ok [ts 0 5 1; ts 5 10 2].
Proof. apply (from_segments_with_gaps_valid_input [ts 0 5 1; ts 5 10 2] 0). reflexivity. Defined.

(** X22 at a concrete input. *)
Lemma from_segments_with_gaps_any_order_witness :
  from_segments_with_gaps [ts 6 9 1; ts 0 2 1] 0 = from_segments_with_gaps [ts 0 2 1; ts 6 9 1] 0.
Proof.
  apply (from_segments_with_gaps_any_order [ts 6 9 1; ts 0 2 1] [ts 0 2 1; ts 6 9 1] 0).
  - apply Permutation_swap.
  - apply (bool_decide_unpack _). vm_compute. exact I.
Defined.

(** X23 at a concrete input. *)
Lemma results_are_validated_witness :
  _validate [Segment.mk 0 5 [1]; Segment.mk 5 10 [2]] = Ok ().
Proof.
  apply (results_are_validated (T := Z)) with (timelines := [[ts 0 5 1; ts 5 10 2]]).
  vm_compute. reflexivity.
Defined.


End FurtherScenarios.
